(** * PyDirMap: the size tree, the treemap layout pass and the pick queue

    A shallow embedding of [PyDirMap.py].  Python objects that the program
    only ever reaches through one owner (a [FileObject] through its parent's
    [children] dict) are values; the module-level dict [COLORS], which every
    [DirectoryMap] aliases as [self.colors], lives in a [Process] record that
    is threaded through every operation of every view.

    Conventions.
    - [str] is [string]; characters are bytes, and [lower] maps the ASCII
      letters only.
    - [int] is [Z]; [//] is [Z.div] (both round towards minus infinity) and
      raises [ZeroDivisionError] on a zero divisor where the source can
      meet one.
    - a [dict] whose iteration order is observable (children, legend) is an
      insertion-ordered association list; [COLORS] and [Counter] are only
      looked up, they are [gmap]s.
    - the geometry numbers are Python floats: the layout section is
      parametric in their type and operations.  [Float64] gives it the
      program's own numbers, binary64 with rounding to nearest; [Exact]
      gives it [Q], numbers that are never rounded, for concrete runs of
      what does not depend on the arithmetic. *)

From Stdlib Require Import ZArith QArith Lia List Sorted Permutation Ascii String DecimalString.
From Stdlib Require Import SpecFloat.
From stdpp Require Import base gmap strings list.

Local Open Scope string_scope.
Local Open Scope Z_scope.

(** ** Python strings *)

Module PyStr.

(** [s[::-1]] *)
Fixpoint rev_onto (s acc : string) : string :=
  match s with
  | EmptyString => acc
  | String c s' => rev_onto s' (String c acc)
  end.

Definition reversed (s : string) : string := rev_onto s EmptyString.

(** [s.find(sub)], counted from position [i] of the original string:
    the lowest index at which [sub] starts, or [-1]. *)
Fixpoint find_from (i : Z) (sub s : string) : Z :=
  if String.prefix sub s then i
  else match s with
       | EmptyString => -1
       | String _ s' => find_from (i + 1) sub s'
       end.

Definition find (s sub : string) : Z := find_from 0 sub s.

Fixpoint drop (n : nat) (s : string) : string :=
  match n, s with
  | O, _ => s
  | S _, EmptyString => EmptyString
  | S n', String _ s' => drop n' s'
  end.

Definition len (s : string) : Z := Z.of_nat (String.length s).

(** [s[start:]]: a negative [start] counts from the end and is clipped
    at the beginning of the string. *)
Definition slice_from (s : string) (start : Z) : string :=
  let start' := if start <? 0 then Z.max 0 (len s + start) else start in
  drop (Z.to_nat start') s.

Definition lower_ascii (c : ascii) : ascii :=
  let n := nat_of_ascii c in
  if (Nat.leb 65 n && Nat.leb n 90)%bool then ascii_of_nat (n + 32) else c.

(** [s.lower()] *)
Fixpoint lower (s : string) : string :=
  match s with
  | EmptyString => EmptyString
  | String c s' => String (lower_ascii c) (lower s')
  end.

(** [str(n)] for an [int] *)
Definition str (n : Z) : string := NilZero.string_of_int (Z.to_int n).

(** [c in s] for a one-character [c] *)
Fixpoint has_char (c : ascii) (s : string) : bool :=
  match s with
  | EmptyString => false
  | String d s' => if Ascii.eqb c d then true else has_char c s'
  end.

End PyStr.

(** ** Exceptions *)

Inductive exn : Set := ZeroDivisionError | KeyError.

Inductive result (A : Type) : Type :=
| Ok (a : A)
| Raise (e : exn).
Arguments Ok {A} a.
Arguments Raise {A} e.

(** ** Insertion-ordered dictionaries *)

Module Dict.
Section Dict.
Context {V : Type}.

Definition t := list (string * V).

Fixpoint get (d : t) (k : string) : option V :=
  match d with
  | [] => None
  | (k', v) :: d' => if String.eqb k k' then Some v else get d' k
  end.

Definition contains (d : t) (k : string) : bool :=
  match get d k with Some _ => true | None => false end.

(** [d[k] = v]: an existing key keeps its place, a new one goes last. *)
Fixpoint set (d : t) (k : string) (v : V) : t :=
  match d with
  | [] => [(k, v)]
  | (k', v') :: d' =>
      if String.eqb k k' then (k', v) :: d' else (k', v') :: set d' k v
  end.

Definition keys (d : t) : list string := map fst d.
Definition values (d : t) : list V := map snd d.
End Dict.
Arguments t : clear implicits.
End Dict.

(** ** The node model *)

Definition DIR : string := "<DIR>".

(** [class FileObject].  The [parent] attribute is the back-reference to
    the owner; in a tree of values it is the position of the node, so the
    constructor below returns the parent it has updated. *)
#[warnings="-register-all"]
Inductive FileObject : Type := mkFileObject {
  path : string;
  size : Z;
  children : list (string * FileObject);
  label : string;
  extension : string
}.

Definition sum_sizes (l : list FileObject) : Z :=
  fold_right (fun c acc => size c + acc) 0 l.

Definition with_children (p : FileObject) (d : Dict.t FileObject) : FileObject :=
  {| path := path p; size := size p; children := d;
     label := label p; extension := extension p |}.

(** Lines 41-42. *)
Definition derive_extension (path : string) : string :=
  let dot := PyStr.find (PyStr.reversed path) "." in
  if (0 <=? dot) && (dot <=? 5)
  then PyStr.lower (PyStr.slice_from path (- dot))
  else "<DIR>".

(** [FileObject.__init__(self, path, parent, size=0)].  It returns the new
    node and the parent after [parent.children[path] = self]. *)
Definition FileObject_init (path : string) (parent : option FileObject)
    (size : Z) : result (FileObject * option FileObject) :=
  let self := {| path := path; size := size; children := [];
                 label := ""; extension := derive_extension path |} in
  Ok (self,
      match parent with
      | Some p => Some (with_children p (Dict.set (children p) path self))
      | None => None
      end).

(** The loop of [rollup]: each child is rolled up, then its size is added. *)
Definition rollup_loop (rollup : FileObject -> FileObject) :=
  fix loop (items : list (string * FileObject)) (total : Z)
      : list (string * FileObject) * Z :=
    match items with
    | [] => ([], total)
    | (k, child) :: rest =>
        let child' := rollup child in
        let (rest', total') := loop rest (total + size child') in
        ((k, child') :: rest', total')
    end.

Definition MB : Z := 1024 ^ 2.

(** [FileObject.rollup(self)] *)
Fixpoint rollup (self : FileObject) : FileObject :=
  let (kids, total) := rollup_loop rollup (children self) (size self) in
  {| path := path self; size := total; children := kids;
     label := path self ++ " | " ++ PyStr.str (total / MB) ++ " MB";
     extension := extension self |}.

(** The children dict after each child has been rolled up. *)
Definition rolled (d : list (string * FileObject)) : list (string * FileObject) :=
  map (fun kv => (fst kv, rollup (snd kv))) d.

(** The nodes of a tree: the tree itself and the nodes of its children. *)
Inductive subnode : FileObject -> FileObject -> Prop :=
| subnode_here (t : FileObject) : subnode t t
| subnode_below (n : FileObject) (k : string) (c t : FileObject) :
    In (k, c) (children t) -> subnode n c -> subnode n t.

(** The sum of the sizes of the leaves below (or at) a node. *)
Fixpoint leaf_sum (t : FileObject) : Z :=
  match children t with
  | [] => size t
  | _ :: _ => fold_right Z.add 0 (map (fun kv => leaf_sum (snd kv)) (children t))
  end.

(** Every node that has children was created with size 0. *)
Fixpoint dirs_start_empty (t : FileObject) : bool :=
  match children t with
  | [] => true
  | _ :: _ => (size t =? 0) && forallb (fun kv => dirs_start_empty (snd kv)) (children t)
  end.

Fixpoint sizes_nonneg (t : FileObject) : bool :=
  (0 <=? size t) && forallb (fun kv => sizes_nonneg (snd kv)) (children t).

(** Induction over a tree, with the property known of every child. *)
Section FileObject_induction.
Variable P : FileObject -> Prop.
Hypothesis node_case : forall p s kids l e,
  Forall (fun kv => P (snd kv)) kids -> P (mkFileObject p s kids l e).

Fixpoint FileObject_tree_ind (t : FileObject) : P t :=
  match t with
  | mkFileObject p s kids l e =>
      node_case p s kids l e
        ((fix all (d : list (string * FileObject)) : Forall (fun kv => P (snd kv)) d :=
            match d with
            | [] => List.Forall_nil _
            | kv :: d' => List.Forall_cons _ kv d' (FileObject_tree_ind (snd kv)) (all d')
            end) kids)
  end.
End FileObject_induction.

(** The distinct elements of a list, in the order of their first
    occurrence. *)
Fixpoint first_seen (l : list string) : list string :=
  match l with
  | [] => []
  | a :: l' => a :: List.filter (fun b => negb (String.eqb b a)) (first_seen l')
  end.

(** ** Sorting and maxima as Python computes them *)

Section Order.
Context {A : Type} (key : A -> Z).

Fixpoint insert_desc (a : A) (l : list A) : list A :=
  match l with
  | [] => [a]
  | b :: l' => if key a <? key b then b :: insert_desc a l' else a :: l
  end.

(** [sorted(l, key=key, reverse=True)]: descending, and stable (equal
    keys keep the order they had in [l]). *)
Definition sorted_desc (l : list A) : list A := fold_right insert_desc [] l.

(** [a] may stand before [b] in a descending list. *)
Definition descending (a b : A) : Prop := key b <= key a.

(** [max(first :: rest, key=key)]: the first element with the largest key. *)
Fixpoint max_by (best : A) (l : list A) : A :=
  match l with
  | [] => best
  | a :: l' => max_by (if key best <? key a then a else best) l'
  end.
End Order.

(** [collections.Counter(l)] and its lookup [c[x]] (0 for a missing key). *)
Definition Counter (l : list string) : gmap string nat :=
  fold_left (fun c x => <[x := S (default 0%nat (c !! x))]> c) l ∅.

Definition Counter_get (c : gmap string nat) (x : string) : Z :=
  Z.of_nat (default 0%nat (c !! x)).

(** ** The children that are drawn *)

(** The children that reach the threshold. *)
Definition eligible {A} (node : A -> FileObject) (minsize : Z) (l : list A) : list A :=
  List.filter (fun c => minsize <=? size (node c)) l.

(** The children of a node that take part in the layout, in layout order. *)
Definition layout_children (minsize : Z) (file : FileObject) : list FileObject :=
  sorted_desc size (eligible id minsize (Dict.values (children file))).

(** ** State and exceptions: a computation mutates its state and either
    returns or raises; what it mutated before raising stays mutated. *)

Definition M (S A : Type) : Type := S -> result A * S.

Definition ret {S A} (a : A) : M S A := fun s => (Ok a, s).
Definition raise {S A} (e : exn) : M S A := fun s => (Raise e, s).
Definition bind {S A B} (m : M S A) (k : A -> M S B) : M S B :=
  fun s => match m s with
           | (Ok a, s') => k a s'
           | (Raise e, s') => (Raise e, s')
           end.
Definition get_state {S} : M S S := fun s => (Ok s, s).
Definition modify {S} (f : S -> S) : M S unit := fun s => (Ok tt, f s).

Declare Scope py_scope.
Delimit Scope py_scope with py.
Notation "'let*' x ':=' m 'in' k" := (bind m (fun x => k))
  (at level 10, x pattern, m at level 100, k at level 200) : py_scope.
Notation "m ';;' k" := (bind m (fun _ => k))
  (at level 100, k at level 200, right associativity) : py_scope.

(** [for a in l: body a] *)
Fixpoint for_each {S A} (l : list A) (body : A -> M S unit) : M S unit :=
  match l with
  | [] => ret tt
  | a :: l' => bind (body a) (fun _ => for_each l' body)
  end.

(** [[f a for a in l]] where [f] may raise *)
Fixpoint list_comp {S A B} (l : list A) (f : A -> M S B) : M S (list B) :=
  match l with
  | [] => ret []
  | a :: l' => bind (f a) (fun b => bind (list_comp l' f) (fun bs => ret (b :: bs)))
  end.

(** [a // b] on ints *)
Definition floordiv {S} (a b : Z) : M S Z :=
  if b =? 0 then raise ZeroDivisionError else ret (a / b).

(** ** The process, its views and the layout pass *)

Definition color : Type := Q * Q * Q.

(** [get_random_color] draws from the generator of [random]; the generator
    is the sequence of its raw outputs, and [rng] counts the draws made. *)
Record Process : Type := mkProcess {
  COLORS : gmap string color;
  rng : nat
}.

(** The module-level value of [COLORS]: [(.2, )*3] for directories. *)
Definition COLORS0 : gmap string color := {[ DIR := (1 # 5, 1 # 5, 1 # 5)%Q ]}.

(** An entry of [COLORS], once there, stays as it is. *)
Definition colors_kept (p p' : Process) : Prop :=
  forall k c, COLORS p !! k = Some c -> COLORS p' !! k = Some c.

Section Layout.
(** Python numbers of the geometry, with [int -> float] conversion,
    [int / int] for a non-zero divisor and [*]. *)
Context {num : Type}.
Variable num_of_Z : Z -> num.
Variable int_truediv : Z -> Z -> num.
Variable num_mul : num -> num -> num.

(** A rectangle [{'x': .., 'y': .., 'dx': .., 'dy': ..}]. *)
Record Rect : Type := mkRect { x : num; y : num; dx : num; dy : num }.

(** [squarify.squarify(sizes, x, y, dx, dy)], an external package. *)
Variable squarify : list num -> num -> num -> num -> num -> result (list Rect).

(** The raw outputs of the random generator. *)
Variable random_stream : nat -> Z.

(** A [patches.Rectangle]; [patch_id] is the identity of the object
    (matplotlib artists hash by identity). *)
Record Patch : Type := mkPatch {
  patch_id : nat;
  xy : num * num;
  width : num;
  height : num;
  facecolor : color
}.

(** [class DirectoryMap].  [self.colors] is not a field: it is the very
    dict [COLORS] of the process.  [ax_legend] and [ax_title] are what
    [self.ax] was last given by [legend(..)] and [set_title(..)]. *)
Record DirectoryMap : Type := mkDirectoryMap {
  root_directory : FileObject;
  resolution : Z;
  legend : Dict.t Patch;
  extension_count : list string;
  patch_dict : list (Patch * FileObject);
  minsize : Z;
  click_list : list (FileObject * Z);
  ax_legend : list Patch * list string;
  ax_title : string
}.

Inductive Window : Type :=
| MapWindow (view : DirectoryMap)
| TreeWindow (root : FileObject).

(** A method of a view runs on the process and on [self]. *)
Definition St : Type := Process * DirectoryMap.

Definition set_COLORS (c : gmap string color) : M St unit :=
  modify (fun '(p, v) => ({| COLORS := c; rng := rng p |}, v)).

Definition set_self (f : DirectoryMap -> DirectoryMap) : M St unit :=
  modify (fun '(p, v) => (p, f v)).

Definition set_legend l (v : DirectoryMap) : DirectoryMap :=
  {| root_directory := root_directory v; resolution := resolution v;
     legend := l; extension_count := extension_count v;
     patch_dict := patch_dict v; minsize := minsize v;
     click_list := click_list v; ax_legend := ax_legend v;
     ax_title := ax_title v |}.

Definition set_extension_count l (v : DirectoryMap) : DirectoryMap :=
  {| root_directory := root_directory v; resolution := resolution v;
     legend := legend v; extension_count := l;
     patch_dict := patch_dict v; minsize := minsize v;
     click_list := click_list v; ax_legend := ax_legend v;
     ax_title := ax_title v |}.

Definition set_patch_dict l (v : DirectoryMap) : DirectoryMap :=
  {| root_directory := root_directory v; resolution := resolution v;
     legend := legend v; extension_count := extension_count v;
     patch_dict := l; minsize := minsize v;
     click_list := click_list v; ax_legend := ax_legend v;
     ax_title := ax_title v |}.

Definition set_minsize m (v : DirectoryMap) : DirectoryMap :=
  {| root_directory := root_directory v; resolution := resolution v;
     legend := legend v; extension_count := extension_count v;
     patch_dict := patch_dict v; minsize := m;
     click_list := click_list v; ax_legend := ax_legend v;
     ax_title := ax_title v |}.

Definition set_click_list l (v : DirectoryMap) : DirectoryMap :=
  {| root_directory := root_directory v; resolution := resolution v;
     legend := legend v; extension_count := extension_count v;
     patch_dict := patch_dict v; minsize := minsize v;
     click_list := l; ax_legend := ax_legend v;
     ax_title := ax_title v |}.

Definition set_ax_legend l (v : DirectoryMap) : DirectoryMap :=
  {| root_directory := root_directory v; resolution := resolution v;
     legend := legend v; extension_count := extension_count v;
     patch_dict := patch_dict v; minsize := minsize v;
     click_list := click_list v; ax_legend := l;
     ax_title := ax_title v |}.

Definition set_ax_title t (v : DirectoryMap) : DirectoryMap :=
  {| root_directory := root_directory v; resolution := resolution v;
     legend := legend v; extension_count := extension_count v;
     patch_dict := patch_dict v; minsize := minsize v;
     click_list := click_list v; ax_legend := ax_legend v;
     ax_title := t |}.

Local Open Scope py_scope.

Definition lift_result {A} (r : result A) : M St A := fun s => (r, s).

(** [a / b] on ints *)
Definition truediv (a b : Z) : M St num :=
  if b =? 0 then raise ZeroDivisionError else ret (int_truediv a b).

(** [random.randint(a, b)] *)
Definition randint (a b : Z) : M St Z := fun '(p, v) =>
  (Ok (a + random_stream (rng p) mod (b - a + 1)),
   ({| COLORS := COLORS p; rng := S (rng p) |}, v)).

(** [get_random_color()] *)
Definition get_random_color : M St color :=
  let* r := randint 0 255 in
  let* g := randint 0 255 in
  let* b := randint 0 255 in
  ret (r # 256, g # 256, b # 256)%Q.

(** [DirectoryMap.get_color(self, extension)] *)
Definition get_color (extension : string) : M St color :=
  let* (p, _) := get_state in
  (if decide (is_Some (COLORS p !! extension)) then ret tt
   else let* c := get_random_color in
        let* (p, _) := get_state in
        set_COLORS (<[extension := c]> (COLORS p))) ;;
  set_self (fun v => set_extension_count (extension_count v ++ [extension]) v) ;;
  let* (p, _) := get_state in
  match COLORS p !! extension with
  | Some c => ret c
  | None => raise KeyError
  end.

(** The body of [draw].  Each child comes with the drawing of its own
    subtree ([kids] pairs a child with [draw child]), which keeps the
    recursion of [draw] structural; see [draw_unfold]. *)
Definition draw_with (file : FileObject)
    (kids : list (FileObject * (Rect -> M St unit))) (rect : Rect) : M St unit :=
  let extension := extension file in
  let* color := get_color extension in
  let '(x, y, dx, dy) := (x rect, y rect, dx rect, dy rect) in
  let* (_, self) := get_state in
  let rect_patch := {| patch_id := length (patch_dict self); xy := (x, y);
                       width := dx; height := dy; facecolor := color |} in
  set_self (fun v => set_patch_dict (patch_dict v ++ [(rect_patch, file)]) v) ;;
  let artist := rect_patch in
  let* (_, self) := get_state in
  (if Dict.contains (legend self) extension then ret tt
   else set_self (fun v => set_legend (Dict.set (legend v) extension artist) v) ;;
        let* (p, _) := get_state in
        set_COLORS (<[extension := color]> (COLORS p))) ;;
  let* (_, self) := get_state in
  let children := eligible fst (minsize self) kids in
  match children with
  | [] => ret tt
  | _ :: _ =>
      let children := sorted_desc (fun c => size (fst c)) children in
      let total_size := num_mul dx dy in
      let* scaled_sizes :=
        list_comp children (fun child =>
          let* q := truediv (size (fst child)) (size file) in
          ret (num_mul q total_size)) in
      let* rectangles := lift_result (squarify scaled_sizes x y dx dy) in
      for_each (zip children rectangles) (fun '(child, rect) => snd child rect)
  end.

(** [DirectoryMap.draw(self, file, rect)] *)
Fixpoint draw (file : FileObject) : Rect -> M St unit :=
  draw_with file (map (fun kv => (snd kv, draw (snd kv))) (children file)).

(** [DirectoryMap.make_legend(self)] *)
Definition make_legend : M St unit :=
  let* (_, self) := get_state in
  let extension_count := Counter (extension_count self) in
  let extensions := sorted_desc (Counter_get extension_count)
                                (Dict.keys (legend self)) in
  let* artists := list_comp extensions (fun ext =>
                    match Dict.get (legend self) ext with
                    | Some a => ret a
                    | None => raise KeyError
                    end) in
  set_self (set_ax_legend (artists, extensions)).

(** [DirectoryMap.__init__(self, root_directory, resolution)], up to the
    start of the timer.  When it raises there is no view, but the process
    keeps what was written to it. *)
Definition DirectoryMap_init (root_directory : FileObject) (resolution : Z)
    : M Process DirectoryMap := fun p =>
  let self := {| root_directory := root_directory; resolution := resolution;
                 legend := []; extension_count := []; patch_dict := [];
                 minsize := 0; click_list := [];
                 ax_legend := ([], []); ax_title := "" |} in
  let rect := {| x := num_of_Z 0; y := num_of_Z 0;
                 dx := num_of_Z 1; dy := num_of_Z 1 |} in
  let body : M St unit :=
    let* m := floordiv (size root_directory) resolution in
    set_self (set_minsize m) ;;
    draw root_directory rect ;;
    make_legend ;;
    set_self (set_click_list []) in
  match body (p, self) with
  | (Ok _, (p', self')) => (Ok self', p')
  | (Raise e, (p', _)) => (Raise e, p')
  end.

(** A pick event: the picked artist and the mouse button. *)
Inductive Artist : Type :=
| RectangleArtist (p : Patch)
| OtherArtist.

Fixpoint patch_lookup (d : list (Patch * FileObject)) (p : Patch) : option FileObject :=
  match d with
  | [] => None
  | (q, f) :: d' => if Nat.eqb (patch_id q) (patch_id p) then Some f
                    else patch_lookup d' p
  end.

(** [DirectoryMap.onpick(self, event)] *)
Definition onpick (artist : Artist) (button : Z) : M St unit :=
  match artist with
  | RectangleArtist a =>
      let* (_, self) := get_state in
      match patch_lookup (patch_dict self) a with
      | Some object =>
          set_self (fun v => set_click_list (click_list v ++ [(object, button)]) v)
      | None => raise KeyError
      end
  | OtherArtist => ret tt
  end.

(** [DirectoryMap.ontime(self)]; it returns the windows it has opened. *)
Definition ontime : M St (list Window) :=
  let* (_, self) := get_state in
  match click_list self with
  | [] => ret []
  | first :: rest =>
      let '(object, button) :=
        max_by (fun c => PyStr.len (path (fst c))) first rest in
      set_self (set_click_list []) ;;
      set_self (set_ax_title (label object)) ;;
      let* opened3 :=
        if button =? 3
        then fun '(p, v) =>
               match DirectoryMap_init object (resolution self) p with
               | (Ok w, p') => (Ok [MapWindow w], (p', v))
               | (Raise e, p') => (Raise e, (p', v))
               end
        else ret [] in
      let* opened2 :=
        if button =? 2 then ret [TreeWindow object] else ret [] in
      ret (opened3 ++ opened2)%list
  end.

(** *** What the parts of [draw] compute, written out *)

(** The colour made from the draws [n], [n+1] and [n+2] of the generator. *)
Definition fresh_color (n : nat) : color :=
  ((0 + random_stream n mod (255 - 0 + 1)) # 256,
   (0 + random_stream (S n) mod (255 - 0 + 1)) # 256,
   (0 + random_stream (S (S n)) mod (255 - 0 + 1)) # 256)%Q.

Definition color_of (p : Process) (extension : string) : color :=
  match COLORS p !! extension with
  | Some c => c
  | None => fresh_color (rng p)
  end.

Definition process_after (p : Process) (extension : string) : Process :=
  match COLORS p !! extension with
  | Some _ => p
  | None => {| COLORS := <[extension := fresh_color (rng p)]> (COLORS p);
               rng := S (S (S (rng p))) |}
  end.

(** The state after lines 84-99 of [draw]. *)
Definition node_state (file : FileObject) (rect : Rect) (s : St) : St :=
  let '(p, v) := s in
  let ext := extension file in
  let c := color_of p ext in
  let p1 := process_after p ext in
  let v1 := set_extension_count (extension_count v ++ [ext]) v in
  let patch := {| patch_id := length (patch_dict v1); xy := (x rect, y rect);
                  width := dx rect; height := dy rect; facecolor := c |} in
  let v2 := set_patch_dict (patch_dict v1 ++ [(patch, file)]) v1 in
  if Dict.contains (legend v2) ext then (p1, v2)
  else ({| COLORS := <[ext := c]> (COLORS p1); rng := rng p1 |},
        set_legend (Dict.set (legend v2) ext patch) v2).

(** Lines 101-112 of [draw]. *)
Definition draw_children (file : FileObject)
    (kids : list (FileObject * (Rect -> M St unit))) (rect : Rect) : M St unit :=
  let '(x, y, dx, dy) := (x rect, y rect, dx rect, dy rect) in
  let* (_, self) := get_state in
  let children := eligible fst (minsize self) kids in
  match children with
  | [] => ret tt
  | _ :: _ =>
      let children := sorted_desc (fun c => size (fst c)) children in
      let total_size := num_mul dx dy in
      let* scaled_sizes :=
        list_comp children (fun child =>
          let* q := truediv (size (fst child)) (size file) in
          ret (num_mul q total_size)) in
      let* rectangles := lift_result (squarify scaled_sizes x y dx dy) in
      for_each (zip children rectangles) (fun '(child, rect) => snd child rect)
  end.

(** The areas that [draw] asks the geometry package for. *)
Definition target_areas (file : FileObject) (rect : Rect) (children : list FileObject)
    : list num :=
  map (fun child => num_mul (int_truediv (size child) (size file))
                            (num_mul (dx rect) (dy rect))) children.

(** The nodes of the pruned tree in the order [draw] visits them. *)
Fixpoint drawn (minsize : Z) (file : FileObject) : list FileObject :=
  file :: flat_map snd
            (sorted_desc (fun c => size (fst c))
               (eligible fst minsize
                  (map (fun kv => (snd kv, drawn minsize (snd kv))) (children file)))).

(** *** Vocabulary of the properties *)

(** The legend holds the extensions in the order of their first encounter,
    and the encounters are the extensions of the drawn nodes. *)
Definition view_inv (v : DirectoryMap) : Prop :=
  Dict.keys (legend v) = first_seen (extension_count v) /\
  extension_count v = map (fun e => extension (snd e)) (patch_dict v).

(** What a part of a layout pass may do to the process and the view. *)
Record extends (s s' : St) : Prop := mk_extends {
  ext_colors : colors_kept (fst s) (fst s');
  ext_minsize : minsize (snd s') = minsize (snd s);
  ext_table : exists new,
    patch_dict (snd s') = (patch_dict (snd s) ++ new)%list /\
    Forall (fun e => minsize (snd s) <= size (snd e)) new;
  ext_inv : view_inv (snd s) -> view_inv (snd s')
}.

(** With a geometry package that returns one rectangle per area, a pass
    that returns has drawn exactly the pruned tree. *)
Definition one_rect_per_area : Prop :=
  forall sizes x y dx dy rects,
    squarify sizes x y dx dy = Ok rects -> length rects = length sizes.

(** The rectangle and the view that [__init__] starts from. *)
Definition unit_rect : Rect :=
  {| x := num_of_Z 0; y := num_of_Z 0; dx := num_of_Z 1; dy := num_of_Z 1 |}.

Definition blank (root : FileObject) (res : Z) : DirectoryMap :=
  {| root_directory := root; resolution := res;
     legend := []; extension_count := []; patch_dict := [];
     minsize := 0; click_list := [];
     ax_legend := ([], []); ax_title := "" |}.

(** [[self.legend[ext] for ext in extensions]] *)
Fixpoint artists_of (d : Dict.t Patch) (extensions : list string)
    : result (list Patch) :=
  match extensions with
  | [] => Ok []
  | ext :: rest =>
      match Dict.get d ext with
      | Some a => match artists_of d rest with
                  | Ok l => Ok (a :: l)
                  | Raise e => Raise e
                  end
      | None => Raise KeyError
      end
  end.

(** The extensions in the order [make_legend] shows them. *)
Definition legend_order (v : DirectoryMap) : list string :=
  sorted_desc (Counter_get (Counter (extension_count v))) (Dict.keys (legend v)).

(** The key of [max] in [ontime]. *)
Definition path_length (c : FileObject * Z) : Z := PyStr.len (path (fst c)).

(** One operation of some view on the process. *)
Inductive process_step (p : Process) : Process -> Prop :=
| step_get_color (ext : string) (v : DirectoryMap) :
    process_step p (fst (snd (get_color ext (p, v))))
| step_draw (file : FileObject) (rect : Rect) (v : DirectoryMap) :
    process_step p (fst (snd (draw file rect (p, v))))
| step_new_map (root : FileObject) (res : Z) :
    process_step p (snd (DirectoryMap_init root res p))
| step_onpick (a : Artist) (button : Z) (v : DirectoryMap) :
    process_step p (fst (snd (onpick a button (p, v))))
| step_ontime (v : DirectoryMap) :
    process_step p (fst (snd (ontime (p, v)))).

End Layout.

Arguments Rect : clear implicits.
Arguments Patch : clear implicits.
Arguments DirectoryMap : clear implicits.
Arguments Window : clear implicits.
Arguments Artist : clear implicits.
Arguments St : clear implicits.

Definition Qsum (l : list Q) : Q := fold_right Qplus 0%Q l.

(** [child.size / file.size * area] as a rational number: the area of
    line 108 before any rounding. *)
Definition exact_share (file : FileObject) (area : Q) (child : FileObject) : Q :=
  (inject_Z (size child) / inject_Z (size file) * area)%Q.

(** ** A concrete instance: exact rationals for the geometry

    Used to run the layout pass on concrete trees.  [strips] stands for the
    geometry package there: it cuts the rectangle into vertical strips of
    the requested areas, left to right.

    These numbers are never rounded, the program's are: what is proved of
    a pass holds for every number type, and this instance only runs it.
    [Float64] below has the program's arithmetic. *)

Module Exact.

Definition int_truediv (a b : Z) : Q := (inject_Z a / inject_Z b)%Q.

Fixpoint strips_from (sizes : list Q) (x y dy : Q) : list (Rect Q) :=
  match sizes with
  | [] => []
  | s :: sizes' =>
      let w := Qred (s / dy)%Q in
      {| x := x; y := y; dx := w; dy := dy |}
        :: strips_from sizes' (Qred (x + w)%Q) y dy
  end.

Definition strips (sizes : list Q) (x y dx dy : Q) : result (list (Rect Q)) :=
  Ok (strips_from sizes x y dy).

Definition stream (n : nat) : Z := Z.of_nat (97 * n + 41).

Definition mul (a b : Q) : Q := Qred (a * b)%Q.

Definition new_map : FileObject -> Z -> M Process (DirectoryMap Q) :=
  DirectoryMap_init inject_Z int_truediv mul strips stream.

Definition tick : M (St Q) (list (Window Q)) :=
  ontime inject_Z int_truediv mul strips stream.

Definition process0 : Process := {| COLORS := COLORS0; rng := 0 |}.

Definition file (p : string) (s : Z) : FileObject :=
  {| path := p; size := s; children := [];
     label := ""; extension := derive_extension p |}.

Definition folder (p : string) (kids : list FileObject) : FileObject :=
  {| path := p; size := 0; children := map (fun c => (path c, c)) kids;
     label := ""; extension := derive_extension p |}.

(** A root of size 100 with children of sizes 50, 30, 15 and 5; [A] is a
    directory whose files have sizes 46 and 4. *)
Definition scanned100 : FileObject :=
  folder "C:\r"
    [file "C:\r\D.txt" 5;
     folder "C:\r\A" [file "C:\r\A\big.bin" 46; file "C:\r\A\tiny.txt" 4];
     file "C:\r\C.TXT" 15;
     file "C:\r\B.bin" 30].

Definition tree100 : FileObject := rollup scanned100.

(** The layout pass over [tree100] with resolution 10, in a fresh process. *)
Definition pass100 : result (DirectoryMap Q) * Process := new_map tree100 10 process0.

Definition view100 : DirectoryMap Q :=
  match fst pass100 with
  | Ok v => v
  | Raise _ => {| root_directory := tree100; resolution := 10; legend := [];
                  extension_count := []; patch_dict := []; minsize := 0;
                  click_list := []; ax_legend := ([], []); ax_title := "" |}
  end.

End Exact.

(** ** The program's numbers: IEEE 754 binary64

    A Python [float] is a binary64 number, and an operation returns the
    double nearest to its exact result, ties to even.  [a / b] on two ints
    is the double nearest to the exact quotient of the ints themselves,
    however long they are.  (Where that quotient is beyond the largest
    double Python raises [OverflowError]; [int_truediv] is an infinity
    there.  It takes sizes of more than 300 digits.) *)

Module Float64.

Definition prec : Z := 53.
Definition emax : Z := 1024.

(** An int as a binary number that has not been rounded. *)
Definition unrounded (n : Z) : spec_float :=
  match n with
  | Z0 => S754_zero false
  | Zpos m => S754_finite false m 0
  | Zneg m => S754_finite true m 0
  end.

(** [float(n)] *)
Definition of_Z (n : Z) : spec_float := binary_normalize prec emax n 0 false.

(** [a / b] on ints, for [b] that is not 0 *)
Definition int_truediv (a b : Z) : spec_float :=
  SFdiv prec emax (unrounded a) (unrounded b).

(** [a * b] on floats *)
Definition mul (a b : spec_float) : spec_float := SFmul prec emax a b.

(** A stand-in for the geometry package: one strip for each area, side by
    side, each as high as the rectangle. *)
Fixpoint strips_from (sizes : list spec_float) (x y dy : spec_float)
    : list (Rect spec_float) :=
  match sizes with
  | [] => []
  | s :: sizes' =>
      let w := SFdiv prec emax s dy in
      {| x := x; y := y; dx := w; dy := dy |}
        :: strips_from sizes' (SFadd prec emax x w) y dy
  end.

Definition strips (sizes : list spec_float) (x y dx dy : spec_float)
    : result (list (Rect spec_float)) :=
  Ok (strips_from sizes x y dy).

(** A directory of [10**17] bytes: one file of [10**17 - 1] bytes and one
    of a single byte. *)
Definition scanned_huge : FileObject :=
  Exact.folder "C:\h"
    [Exact.file "C:\h\huge.bin" (10 ^ 17 - 1); Exact.file "C:\h\one.txt" 1].

Definition tree_huge : FileObject := rollup scanned_huge.

End Float64.

(** ** More vocabulary *)

(** Every character of the string is an ASCII character.  On such a
    string [str.lower()] changes the letters [A] to [Z] and nothing else,
    which is what [PyStr.lower] does. *)
Fixpoint is_ascii (s : string) : bool :=
  match s with
  | EmptyString => true
  | String c s' => (nat_of_ascii c <? 128)%nat && is_ascii s'
  end.

(** An ASCII letter in its other case; any other character as it is. *)
Definition other_case (c : ascii) : ascii :=
  let n := nat_of_ascii c in
  if (Nat.leb 65 n && Nat.leb n 90)%bool then ascii_of_nat (n + 32)
  else if (Nat.leb 97 n && Nat.leb n 122)%bool then ascii_of_nat (n - 32)
  else c.

Definition same_letter (a b : ascii) : bool :=
  Ascii.eqb a b || Ascii.eqb (other_case a) b.

(** Two strings that differ in the case of ASCII letters at most. *)
Fixpoint same_up_to_case (p q : string) : bool :=
  match p, q with
  | EmptyString, EmptyString => true
  | String a p', String b q' => same_letter a b && same_up_to_case p' q'
  | _, _ => false
  end.

(** A colour whose channels are in [[0, 1)]. *)
Definition valid_color (c : color) : Prop :=
  let '(r, g, b) := c in
  (0 <= r /\ r < 1)%Q /\ (0 <= g /\ g < 1)%Q /\ (0 <= b /\ b < 1)%Q.

Definition valid_colors (p : Process) : Prop :=
  forall k c, COLORS p !! k = Some c -> valid_color c.

Section LayoutVocabulary.
Context {num : Type}.
Variable squarify : list num -> num -> num -> num -> num -> result (list (Rect num)).

(** Every rectangle of the table, and every legend handle, has the colour
    that [COLORS] holds for its extension. *)
Definition colours_agree (s : St num) : Prop :=
  (forall patch node, In (patch, node) (patch_dict (snd s)) ->
     COLORS (fst s) !! extension node = Some (facecolor patch)) /\
  (forall ext a, In (ext, a) (legend (snd s)) ->
     COLORS (fst s) !! ext = Some (facecolor a)).

(** The identity of the rectangle at place [i] of the table is [i]. *)
Definition table_ids_ok (s : St num) : Prop :=
  map (fun e => patch_id (fst e)) (patch_dict (snd s))
  = seq 0 (length (patch_dict (snd s))).

(** The geometry package never raises. *)
Definition squarify_returns : Prop :=
  forall sizes x y dx dy, exists rects, squarify sizes x y dx dy = Ok rects.

End LayoutVocabulary.

(** ** The tree browser: the rows of [DirectoryTree.build_tree]

    The [ttk.Treeview] is tkinter's.  What is modelled is what
    [build_tree] asks of it and records beside it: one call of
    [self.tree.insert(parent, 'end', file.path, ..)] for each node, in
    order, each with the node stored in [self.directory_dict] under the
    id that the call returns (the id it was given, [file.path]). *)

Record Row : Type := mkRow {
  iid : string;
  row_parent : string;
  text : string;
  values : string
}.

(** [child.children] as a condition: the dict is not empty. *)
Definition has_children (c : FileObject) : bool :=
  match children c with
  | [] => false
  | _ :: _ => true
  end.

(** [child_directories + child_files] *)
Definition tree_children {A : Type} (node : A -> FileObject) (l : list A) : list A :=
  (sorted_desc (fun c => size (node c))
     (List.filter (fun c => has_children (node c)) l)
   ++ sorted_desc (fun c => size (node c))
        (List.filter (fun c => negb (has_children (node c))) l))%list.

(** The body of [build_tree]; as in [draw_with], each child comes with
    the rows of its own subtree. *)
Definition build_tree_with (file : FileObject)
    (kids : list (FileObject * (string -> list (Row * FileObject))))
    (parent : string) : list (Row * FileObject) :=
  let id := path file in
  ({| iid := path file; row_parent := parent; text := path file;
      values := PyStr.str (size file / 1024 ^ 2) |}, file)
  :: flat_map (fun child => snd child id) (tree_children fst kids).

(** [DirectoryTree.build_tree(self, file, parent='')] *)
Fixpoint build_tree (file : FileObject) : string -> list (Row * FileObject) :=
  build_tree_with file (map (fun kv => (snd kv, build_tree (snd kv))) (children file)).

(** [self.directory_dict] after the calls. *)
Definition directory_dict_of (calls : list (Row * FileObject)) : Dict.t FileObject :=
  fold_left (fun d e => Dict.set d (iid (fst e)) (snd e)) calls [].

(** The nodes of a tree, parents before children. *)
Fixpoint nodes (t : FileObject) : list FileObject :=
  t :: flat_map (fun kv => nodes (snd kv)) (children t).

(** The row shows the path and the size of its node. *)
Definition row_of_node (e : Row * FileObject) : Prop :=
  iid (fst e) = path (snd e) /\ text (fst e) = path (snd e) /\
  values (fst e) = PyStr.str (size (snd e) / 1024 ^ 2).

(** The row is under the row of the node that holds its node. *)
Definition row_under_parent (root : FileObject) (e : Row * FileObject) : Prop :=
  exists m, In m (nodes root) /\ In (snd e) (Dict.values (children m)) /\
            row_parent (fst e) = path m.

(** ** The scan: nodes as objects in a store

    [create_parents] keeps two references to a node, one in
    [directory_dict] and one as the [parent] of the nodes below it, and
    the constructor updates the parent in place.  Here a node is an object
    in a store, and a reference is its place in the store. *)

Module Scan.

(** [s.split(sep)] for a one-character [sep] *)
Fixpoint split_on (sep : ascii) (s : string) : list string :=
  match s with
  | EmptyString => [EmptyString]
  | String c s' =>
      if Ascii.eqb c sep then EmptyString :: split_on sep s'
      else match split_on sep s' with
           | [] => [String c EmptyString]
           | w :: ws => String c w :: ws
           end
  end.

(** [sep.join(l)] *)
Fixpoint join (sep : string) (l : list string) : string :=
  match l with
  | [] => EmptyString
  | w :: ws =>
      match ws with
      | [] => w
      | _ :: _ => w ++ sep ++ join sep ws
      end
  end.

Record Obj : Type := mkObj {
  o_path : string;
  o_size : Z;
  o_parent : option nat;
  o_children : Dict.t nat;
  o_label : string;
  o_extension : string
}.

(** [parent.children[path] = self] *)
Definition add_child (path : string) (self : nat) (o : Obj) : Obj :=
  {| o_path := o_path o; o_size := o_size o; o_parent := o_parent o;
     o_children := Dict.set (o_children o) path self;
     o_label := o_label o; o_extension := o_extension o |}.

(** [FileObject(path, parent, size)] in a store: the new object gets the
    next place, and that place is returned. *)
Definition FileObject_new (st : list Obj) (path : string) (parent : option nat)
    (size : Z) : list Obj * nat :=
  let self := length st in
  let st1 := match parent with
             | Some q => alter (add_child path self) q st
             | None => st
             end in
  ((st1 ++ [{| o_path := path; o_size := size; o_parent := parent;
               o_children := []; o_label := "";
               o_extension := derive_extension path |}])%list,
   self).

(** [new_directory = '\\'.join(dps[:i])] *)
Definition prefix_path (dps : list string) (i : nat) : string :=
  join "\" (firstn i dps).

(** One round of the loop of [create_parents]. *)
Definition create_parents_step (dps : list string)
    (acc : list Obj * Dict.t nat * option nat) (i : nat)
    : list Obj * Dict.t nat * option nat :=
  let '(st, directory_dict, directory_object) := acc in
  let new_directory := prefix_path dps i in
  match Dict.get directory_dict new_directory with
  | None =>
      let (st', o) := FileObject_new st new_directory directory_object 0 in
      (st', Dict.set directory_dict new_directory o, Some o)
  | Some o => (st, directory_dict, Some o)
  end.

(** [create_parents(directory_path, directory_dict)]; it returns the
    store and the dict as it leaves them, and the object it returns. *)
Definition create_parents (directory_path : string)
    (st : list Obj) (directory_dict : Dict.t nat)
    : list Obj * Dict.t nat * option nat :=
  let dps := split_on "\" directory_path in
  fold_left (create_parents_step dps) (seq 1 (length dps))
            (st, directory_dict, None).

(** [directory_dict] and the store name the same objects by the same
    paths, and every object that has a parent is in the [children] of
    that parent under its own path, which is the path of the parent, a
    separator and a name. *)
Definition indexed (st : list Obj) (directory_dict : Dict.t nat) : Prop :=
  forall k o, Dict.get directory_dict k = Some o <->
              exists obj, st !! o = Some obj /\ o_path obj = k.

Definition linked (st : list Obj) : Prop :=
  forall o obj q, st !! o = Some obj -> o_parent obj = Some q ->
    exists pobj name,
      st !! q = Some pobj /\
      Dict.get (o_children pobj) (o_path obj) = Some o /\
      o_path obj = o_path pobj ++ "\" ++ name.

(** An object of the store, apart from its children. *)
Definition same_node (a b : Obj) : Prop :=
  o_path b = o_path a /\ o_size b = o_size a /\ o_parent b = o_parent a /\
  o_label b = o_label a /\ o_extension b = o_extension a.

Definition store_grows (st st' : list Obj) : Prop :=
  forall q obj, st !! q = Some obj ->
    exists obj', st' !! q = Some obj' /\ same_node obj obj'.

Definition dict_grows (d d' : Dict.t nat) : Prop :=
  forall k v, Dict.get d k = Some v -> Dict.get d' k = Some v.

(** What the loop of [create_parents] holds in [directory_object]
    after [j] rounds. *)
Definition carried (dps : list string) (dd : Dict.t nat) (ob : option nat)
    (j : nat) : Prop :=
  match j with
  | O => ob = None
  | S _ => exists o, ob = Some o /\ Dict.get dd (prefix_path dps j) = Some o
  end.

End Scan.

(** * Properties *)

(** ** Strings and the extension of a node *)

Module PyStrFacts.
Import PyStr.

Lemma rev_onto_app (a b acc : string) :
  rev_onto (a ++ b) acc = rev_onto b (rev_onto a acc).
Proof.
  revert acc. induction a as [|c a IH]; intros acc; simpl; [reflexivity|].
  apply IH.
Qed.

Lemma length_app (a b : string) :
  String.length (a ++ b) = (String.length a + String.length b)%nat.
Proof. induction a as [|c a IH]; simpl; [reflexivity | now rewrite IH]. Qed.

Lemma drop_app (a b : string) : drop (String.length a) (a ++ b) = b.
Proof. induction a as [|c a IH]; simpl; [now destruct b | exact IH]. Qed.

Lemma prefix_dot (c : ascii) (s : string) :
  String.prefix "." (String c s) = Ascii.eqb "." c.
Proof.
  change (String.prefix "." (String c s))
    with (if ascii_dec "." c then String.prefix "" s else false).
  destruct (ascii_dec "." c) as [<-|Hne].
  - rewrite Ascii.eqb_refl. now destruct s.
  - symmetry. now apply Ascii.eqb_neq.
Qed.

Lemma has_char_cons (c d : ascii) (s : string) :
  has_char c (String d s) = if Ascii.eqb c d then true else has_char c s.
Proof. reflexivity. Qed.

Lemma has_char_rev_onto (c : ascii) (s acc : string) :
  has_char c (rev_onto s acc) = (has_char c s || has_char c acc)%bool.
Proof.
  revert acc. induction s as [|d s IH]; intros acc; [reflexivity|].
  change (rev_onto (String d s) acc) with (rev_onto s (String d acc)).
  rewrite IH, !has_char_cons.
  destruct (Ascii.eqb c d), (has_char c s); reflexivity.
Qed.

(** [find] walks over a dot-free prefix of the reversed string. *)
Lemma find_from_rev_onto (s acc : string) (i : Z) :
  has_char "." s = false ->
  find_from i "." (rev_onto s acc) = find_from (i + len s) "." acc.
Proof.
  revert acc i. induction s as [|c s IH]; intros acc i Hs.
  - simpl. f_equal. unfold len. simpl. lia.
  - rewrite has_char_cons in Hs.
    destruct (Ascii.eqb "." c) eqn:Hc; [discriminate|].
    change (rev_onto (String c s) acc) with (rev_onto s (String c acc)).
    rewrite IH by assumption.
    change (find_from (i + len s) "." (String c acc))
      with (if String.prefix "." (String c acc) then i + len s
            else find_from (i + len s + 1) "." acc).
    rewrite (prefix_dot c acc), Hc.
    unfold len. simpl String.length. f_equal. lia.
Qed.

Lemma find_from_no_dot (s : string) (i : Z) :
  has_char "." s = false -> find_from i "." s = -1.
Proof.
  revert i. induction s as [|c s IH]; intros i Hs.
  - reflexivity.
  - rewrite has_char_cons in Hs.
    destruct (Ascii.eqb "." c) eqn:Hc; [discriminate|].
    change (find_from i "." (String c s))
      with (if String.prefix "." (String c s) then i
            else find_from (i + 1) "." s).
    rewrite prefix_dot, Hc. now apply IH.
Qed.

(** The index found in the reversed path is the number of characters
    after the last dot. *)
Lemma find_reversed_dot (pre suf : string) :
  has_char "." suf = false ->
  find (reversed (pre ++ "." ++ suf)) "." = len suf.
Proof.
  intros Hs. unfold find, reversed.
  rewrite rev_onto_app.
  change ("." ++ suf) with (String "." suf). simpl rev_onto at 1.
  rewrite find_from_rev_onto by assumption.
  change (find_from (0 + len suf) "." (String "." (rev_onto pre "")))
    with (if String.prefix "." (String "." (rev_onto pre ""))
          then 0 + len suf
          else find_from (0 + len suf + 1) "." (rev_onto pre "")).
  rewrite prefix_dot. reflexivity.
Qed.

Lemma find_reversed_none (s : string) :
  has_char "." s = false -> find (reversed s) "." = -1.
Proof.
  intros Hs. unfold find, reversed. apply find_from_no_dot.
  rewrite has_char_rev_onto, Hs. reflexivity.
Qed.

Lemma app_assoc (a b c : string) : a ++ b ++ c = (a ++ b) ++ c.
Proof.
  induction a as [|d a IH]; [reflexivity|].
  change (String d (a ++ b ++ c) = String d ((a ++ b) ++ c)).
  now rewrite IH.
Qed.

Lemma slice_from_suffix (pre suf : string) :
  (0 < String.length suf)%nat ->
  slice_from (pre ++ "." ++ suf) (- len suf) = suf.
Proof.
  intros Hpos. rewrite app_assoc. unfold slice_from, len.
  destruct (Z.ltb_spec (- Z.of_nat (String.length suf)) 0) as [_|?]; [|lia].
  replace (Z.to_nat _) with (String.length (pre ++ ".")).
  - apply drop_app.
  - rewrite (length_app (pre ++ ".") suf). lia.
Qed.

End PyStrFacts.

Module DictFacts.
Section DictFacts.
Context {V : Type}.
Implicit Types (d : Dict.t V) (k : string) (v : V).

Lemma get_set_eq d k v : Dict.get (Dict.set d k v) k = Some v.
Proof.
  induction d as [|[k' v'] d IH]; simpl.
  - now rewrite String.eqb_refl.
  - destruct (String.eqb k k') eqn:E; simpl; rewrite E; [reflexivity | exact IH].
Qed.

Lemma get_set_ne d k k' v :
  k' <> k -> Dict.get (Dict.set d k v) k' = Dict.get d k'.
Proof.
  intros Hne. induction d as [|[k0 v0] d IH]; simpl.
  - destruct (String.eqb_spec k' k); [contradiction | reflexivity].
  - destruct (String.eqb_spec k k0) as [->|Hk]; simpl.
    + destruct (String.eqb_spec k' k0); [contradiction | reflexivity].
    + now rewrite IH.
Qed.

Lemma contains_in_keys d k : Dict.contains d k = true <-> In k (Dict.keys d).
Proof.
  unfold Dict.contains, Dict.keys.
  induction d as [|[k' v'] d IH]; simpl.
  - split; [discriminate | contradiction].
  - destruct (String.eqb_spec k k') as [->|Hk].
    + split; auto.
    + rewrite IH. split; [auto | intros [H|H]; [congruence | exact H]].
Qed.

(** Assignment to a present key leaves the keys and their order alone;
    a new key is appended. *)
Lemma keys_set d k v :
  Dict.keys (Dict.set d k v) =
  if Dict.contains d k then Dict.keys d else (Dict.keys d ++ [k])%list.
Proof.
  unfold Dict.contains, Dict.keys.
  induction d as [|[k' v'] d IH]; simpl; [reflexivity|].
  destruct (String.eqb k k'); simpl; [reflexivity|].
  rewrite IH. now destruct (Dict.get d k).
Qed.

Lemma set_fresh d k v :
  Dict.contains d k = false -> Dict.set d k v = (d ++ [(k, v)])%list.
Proof.
  unfold Dict.contains.
  induction d as [|[k' v'] d IH]; simpl; [reflexivity|].
  destruct (String.eqb k k'); [discriminate|].
  intros H. now rewrite IH.
Qed.

Lemma length_set d k v :
  length (Dict.set d k v) =
  if Dict.contains d k then length d else S (length d).
Proof.
  unfold Dict.contains.
  induction d as [|[k' v'] d IH]; simpl; [reflexivity|].
  destruct (String.eqb k k'); simpl; [reflexivity|].
  rewrite IH. now destruct (Dict.get d k).
Qed.
End DictFacts.
End DictFacts.

(** The extension of a constructed node is [derive_extension] of its path,
    and construction always returns. *)
Lemma FileObject_init_returns (p : string) (parent : option FileObject) (sz : Z) :
  exists self parent',
    FileObject_init p parent sz = Ok (self, parent') /\
    path self = p /\ size self = sz /\ children self = [] /\
    extension self = derive_extension p.
Proof. unfold FileObject_init. eexists _, _. repeat split. Qed.

(** C2, as stated, fails: the extension of ["archive.tar.gz"] is ["gz"],
    without the separator. *)
Lemma extension_of_archive_tar_gz :
  exists self parent',
    FileObject_init "archive.tar.gz" None 0 = Ok (self, parent') /\
    extension self = "gz" /\ extension self <> ".gz".
Proof.
  eexists _, _. split; [reflexivity|]. split; [reflexivity | discriminate].
Qed.

(** C2, amended.  Let [suf] be what follows the last ['.'] of the path.
    When [suf] has 1 to 5 characters the extension of the constructed node
    is [suf] lower-cased, without the ['.']; when it has 6 or more, and
    when the path has no ['.'] at all, the node gets the directory key. *)
Theorem extension_after_last_dot (pre suf : string)
    (parent : option FileObject) (sz : Z) :
  PyStr.has_char "." suf = false ->
  (exists self parent',
     FileObject_init (pre ++ "." ++ suf) parent sz = Ok (self, parent') /\
     (1 <= PyStr.len suf <= 5 -> extension self = PyStr.lower suf) /\
     (6 <= PyStr.len suf -> extension self = DIR)) /\
  (exists self parent',
     FileObject_init suf parent sz = Ok (self, parent') /\
     extension self = DIR).
Proof.
  intros Hs. split.
  - eexists _, _. split; [reflexivity|]. cbn [extension].
    unfold derive_extension.
    rewrite PyStrFacts.find_reversed_dot by assumption.
    split; intros H.
    + destruct (Z.leb_spec 0 (PyStr.len suf)); [|lia].
      destruct (Z.leb_spec (PyStr.len suf) 5); [|lia]. cbn [andb].
      rewrite PyStrFacts.slice_from_suffix; [reflexivity|].
      unfold PyStr.len in H. lia.
    + destruct (Z.leb_spec (PyStr.len suf) 5); [lia|].
      now rewrite andb_false_r.
  - eexists _, _. split; [reflexivity|]. cbn [extension].
    unfold derive_extension.
    now rewrite PyStrFacts.find_reversed_none.
Qed.

Lemma extension_after_last_dot_witness :
  (exists self parent',
     FileObject_init "Photo.JPEG" None 0 = Ok (self, parent') /\
     extension self = "jpeg") /\
  (exists self parent',
     FileObject_init "JPEG" None 0 = Ok (self, parent') /\
     extension self = DIR).
Proof.
  destruct (extension_after_last_dot "Photo" "JPEG" None 0 eq_refl)
    as [(self & parent' & Hinit & Hshort & _) Hnone].
  split; [|exact Hnone].
  exists self, parent'. split; [exact Hinit|].
  apply Hshort. vm_compute. split; discriminate.
Defined.

(** C10.  A path that ends in ['.'] makes the extension the whole path,
    lower-cased: [find] returns 0 and [path[-0:]] is all of [path]. *)
Theorem extension_of_trailing_dot (p : string) (parent : option FileObject) (sz : Z) :
  exists self parent',
    FileObject_init (p ++ ".") parent sz = Ok (self, parent') /\
    extension self = PyStr.lower (p ++ ".").
Proof.
  eexists _, _. split; [reflexivity|]. cbn [extension].
  unfold derive_extension.
  replace (PyStr.find (PyStr.reversed (p ++ ".")) ".") with 0.
  - reflexivity.
  - unfold PyStr.find, PyStr.reversed. rewrite PyStrFacts.rev_onto_app.
    change (PyStr.rev_onto "." (PyStr.rev_onto p ""))
      with (String "." (PyStr.rev_onto p "")).
    change (PyStr.find_from 0 "." (String "." (PyStr.rev_onto p "")))
      with (if String.prefix "." (String "." (PyStr.rev_onto p "")) then 0
            else PyStr.find_from (0 + 1) "." (PyStr.rev_onto p "")).
    now rewrite PyStrFacts.prefix_dot.
Qed.

(** ** Construction *)

(** C7, as stated, fails: constructing a node under a parent that already
    holds its path returns normally. *)
Lemma init_on_duplicate_path_returns :
  let parent := Exact.folder "C:\d" [Exact.file "C:\d\a.txt" 7] in
  Dict.contains (children parent) "C:\d\a.txt" = true /\
  forall e, FileObject_init "C:\d\a.txt" (Some parent) 3 <> Raise e.
Proof. split; [reflexivity | discriminate]. Qed.

(** C7, amended.  Construction never fails.  Given a parent, the node is
    stored in [parent.children] under its path and no other key changes;
    if the path was already there the node takes the place of the old
    entry (keys and their order unchanged), otherwise it is appended. *)
Theorem init_registers_under_path (p : string) (parent : FileObject) (sz : Z) :
  exists self parent',
    FileObject_init p (Some parent) sz = Ok (self, Some parent') /\
    path self = p /\ size self = sz /\ children self = [] /\
    Dict.get (children parent') p = Some self /\
    (forall k, k <> p -> Dict.get (children parent') k = Dict.get (children parent) k) /\
    Dict.keys (children parent') =
      (if Dict.contains (children parent) p then Dict.keys (children parent)
       else Dict.keys (children parent) ++ [p])%list /\
    (if Dict.contains (children parent) p
     then length (children parent') = length (children parent)
     else children parent' = (children parent ++ [(p, self)])%list) /\
    path parent' = path parent /\ size parent' = size parent.
Proof.
  eexists _, _. split; [reflexivity|]. cbn [path size children with_children].
  repeat split.
  - apply DictFacts.get_set_eq.
  - intros k Hk. now apply DictFacts.get_set_ne.
  - apply DictFacts.keys_set.
  - destruct (Dict.contains (children parent) p) eqn:E.
    + now rewrite DictFacts.length_set, E.
    + now apply DictFacts.set_fresh.
Qed.

(** ** Aggregation *)

Lemma rollup_loop_spec (items : list (string * FileObject)) (total : Z) :
  rollup_loop rollup items total =
  (rolled items, total + sum_sizes (Dict.values (rolled items))).
Proof.
  revert total. induction items as [|[k c] items IH]; intros total; simpl.
  - f_equal. lia.
  - rewrite IH. f_equal. lia.
Qed.

Lemma rollup_unfold (t : FileObject) :
  rollup t =
  let total := size t + sum_sizes (Dict.values (rolled (children t))) in
  {| path := path t; size := total; children := rolled (children t);
     label := path t ++ " | " ++ PyStr.str (total / MB) ++ " MB";
     extension := extension t |}.
Proof.
  destruct t as [p s kids l e]. cbn [rollup children size path extension].
  now rewrite rollup_loop_spec.
Qed.

Lemma children_rollup (t : FileObject) : children (rollup t) = rolled (children t).
Proof. now rewrite rollup_unfold. Qed.

(** After [rollup], the size of a node is its size before plus the sizes
    its children have after. *)
Lemma size_rollup (t : FileObject) :
  size (rollup t) = size t + sum_sizes (Dict.values (children (rollup t))).
Proof. rewrite children_rollup. now rewrite rollup_unfold. Qed.

Lemma sum_sizes_rolled (d : list (string * FileObject)) :
  Forall (fun kv => size (rollup (snd kv)) = leaf_sum (snd kv)) d ->
  sum_sizes (Dict.values (rolled d)) =
  fold_right Z.add 0 (map (fun kv => leaf_sum (snd kv)) d).
Proof.
  induction 1 as [|[k c] d Hc _ IH]; simpl in *; [reflexivity|].
  now rewrite Hc, IH.
Qed.

Lemma size_rollup_leaf_sum (t : FileObject) :
  dirs_start_empty t = true -> size (rollup t) = leaf_sum t.
Proof.
  induction t as [p s kids l e IH] using FileObject_tree_ind.
  intros Hz. rewrite rollup_unfold. cbn [size children] in *.
  destruct kids as [|kv kids]; [simpl; lia|].
  cbn [dirs_start_empty leaf_sum children size] in *.
  apply andb_prop in Hz as [Hs Hall]. apply Z.eqb_eq in Hs. subst s.
  rewrite sum_sizes_rolled; [reflexivity|].
  rewrite forallb_forall in Hall. rewrite List.Forall_forall in IH |- *.
  intros x Hx. apply IH; [exact Hx|]. apply Hall, Hx.
Qed.

Lemma leaf_sums_rolled (d : list (string * FileObject)) :
  Forall (fun kv => leaf_sum (rollup (snd kv)) = leaf_sum (snd kv)) d ->
  map (fun kv => leaf_sum (snd kv)) (rolled d) = map (fun kv => leaf_sum (snd kv)) d.
Proof.
  induction 1 as [|x d Hx _ IHd]; simpl; [reflexivity|].
  now rewrite Hx, IHd.
Qed.

Lemma leaf_sum_rollup (t : FileObject) : leaf_sum (rollup t) = leaf_sum t.
Proof.
  induction t as [p s kids l e IH] using FileObject_tree_ind.
  rewrite rollup_unfold.
  destruct kids as [|kv kids]; [simpl; lia|].
  apply leaf_sums_rolled in IH.
  cbn [leaf_sum children] in *. cbn [rolled map] in *.
  now rewrite IH.
Qed.

Lemma subnode_rollup (root n : FileObject) :
  subnode n (rollup root) -> exists n0, subnode n0 root /\ n = rollup n0.
Proof.
  revert n. induction root as [p s kids l e IH] using FileObject_tree_ind.
  intros n Hn. inversion Hn as [|? k c ? Hin Hsub]; subst.
  - eexists. split; [apply subnode_here | reflexivity].
  - rewrite children_rollup in Hin. cbn [children] in Hin.
    unfold rolled in Hin. apply in_map_iff in Hin as ([k0 c0] & Heq & Hin0).
    inversion Heq; subst. cbn [fst snd] in *.
    rewrite List.Forall_forall in IH.
    destruct (IH _ Hin0 n Hsub) as (n0 & Hn0 & ->).
    exists n0. split; [|reflexivity].
    eapply subnode_below; [|exact Hn0]. exact Hin0.
Qed.

Lemma dirs_start_empty_subnode (root n : FileObject) :
  subnode n root -> dirs_start_empty root = true -> dirs_start_empty n = true.
Proof.
  induction 1 as [|n k c t Hin _ IH]; [auto|].
  intros Hz. apply IH.
  destruct t as [p s kids l e]. cbn [children dirs_start_empty] in *.
  destruct kids as [|kv kids]; [contradiction|].
  apply andb_prop in Hz as [_ Hall]. rewrite forallb_forall in Hall.
  exact (Hall (k, c) Hin).
Qed.

(** C1.  If the nodes that have children were created with size 0, then
    after one [rollup] of the root every node of the tree is the rollup of
    the node that was there, its size is the sum of the sizes of the leaves
    of its subtree, and it is also its own initial size plus the final
    sizes of its direct children. *)
Theorem rollup_sums_leaves (root : FileObject) :
  dirs_start_empty root = true ->
  forall n, subnode n (rollup root) ->
    exists n0, subnode n0 root /\ n = rollup n0 /\
      size n = leaf_sum n0 /\
      size n = leaf_sum n /\
      size n = size n0 + sum_sizes (Dict.values (children n)).
Proof.
  intros Hz n Hn.
  destruct (subnode_rollup root n Hn) as (n0 & Hn0 & ->).
  exists n0. split; [exact Hn0|]. split; [reflexivity|].
  pose proof (dirs_start_empty_subnode root n0 Hn0 Hz) as Hz0.
  rewrite leaf_sum_rollup.
  repeat split; try now apply size_rollup_leaf_sum.
  apply size_rollup.
Qed.

Lemma rollup_sums_leaves_witness :
  exists n0, subnode n0 Exact.scanned100 /\ Exact.tree100 = rollup n0 /\
    size Exact.tree100 = leaf_sum n0 /\
    size Exact.tree100 = leaf_sum Exact.tree100 /\
    size Exact.tree100 = size n0 + sum_sizes (Dict.values (children Exact.tree100)).
Proof.
  exact (rollup_sums_leaves Exact.scanned100 eq_refl Exact.tree100 (subnode_here _)).
Defined.

Lemma size_rollup_ge (t : FileObject) :
  sizes_nonneg t = true -> size t <= size (rollup t).
Proof.
  induction t as [p s kids l e IH] using FileObject_tree_ind.
  intros Hnn. rewrite size_rollup, children_rollup. cbn [size children] in *.
  cbn [sizes_nonneg size children] in Hnn. apply andb_prop in Hnn as [Hs Hall].
  apply Z.leb_le in Hs.
  enough (0 <= sum_sizes (Dict.values (rolled kids))) by lia.
  clear Hs. induction IH as [|[k c] d Hc _ IHd]; simpl in *; [lia|].
  apply andb_prop in Hall as [Hc0 Hd]. specialize (IHd Hd). specialize (Hc Hc0).
  destruct c as [cp cs ck cl ce]. cbn [sizes_nonneg size] in Hc0, Hc.
  apply andb_prop in Hc0 as [Hcs _]. apply Z.leb_le in Hcs. lia.
Qed.

Lemma sizes_nonneg_rollup (t : FileObject) :
  sizes_nonneg t = true -> sizes_nonneg (rollup t) = true.
Proof.
  induction t as [p s kids l e IH] using FileObject_tree_ind.
  intros Hnn. pose proof (size_rollup_ge _ Hnn) as Hge.
  rewrite rollup_unfold in *. cbn [sizes_nonneg size children] in *.
  apply andb_prop in Hnn as [Hs Hall]. apply Z.leb_le in Hs.
  apply andb_true_intro. split; [apply Z.leb_le; lia|].
  clear Hge Hs. induction IH as [|[k c] d Hc _ IHd]; simpl in *; [reflexivity|].
  apply andb_prop in Hall as [Hc0 Hd].
  now rewrite Hc, IHd.
Qed.

Lemma sum_sizes_rolled_ge (d : list (string * FileObject)) :
  forallb (fun kv => sizes_nonneg (snd kv)) d = true ->
  sum_sizes (Dict.values d) <= sum_sizes (Dict.values (rolled d)).
Proof.
  induction d as [|[k c] d IH]; simpl; [lia|].
  intros H. apply andb_prop in H as [Hc Hd].
  pose proof (size_rollup_ge c Hc). specialize (IH Hd). lia.
Qed.

(** C8, as stated, fails: a second [rollup] counts the child again. *)
Lemma second_rollup_doubles :
  let t := Exact.folder "C:\d" [Exact.file "C:\d\a.txt" 7] in
  size (rollup t) = 7 /\ size (rollup (rollup t)) = 14 /\
  size (rollup (rollup t)) <> size (rollup t).
Proof. repeat split. discriminate. Qed.

(** C8, amended.  [rollup] has no guard against a second call: the second
    call adds to the already aggregated size of a node the sizes its
    children have after it.  With sizes that are not negative this is at
    least the initial size plus twice the total of the children's sizes
    after the first call. *)
Theorem rollup_again_adds_children_again (t : FileObject) :
  sizes_nonneg t = true ->
  size (rollup (rollup t)) =
    size (rollup t) + sum_sizes (Dict.values (children (rollup (rollup t)))) /\
  size t + 2 * sum_sizes (Dict.values (children (rollup t)))
    <= size (rollup (rollup t)).
Proof.
  intros Hnn. split; [apply size_rollup|].
  rewrite (size_rollup (rollup t)), (size_rollup t).
  rewrite (children_rollup (rollup t)).
  pose proof (sizes_nonneg_rollup t Hnn) as Hnn'.
  destruct (rollup t) as [p s kids l e] eqn:E. cbn [children] in *.
  cbn [sizes_nonneg children] in Hnn'. apply andb_prop in Hnn' as [_ Hall].
  pose proof (sum_sizes_rolled_ge kids Hall). lia.
Qed.

Lemma rollup_again_adds_children_again_witness :
  size (rollup Exact.tree100) =
    size Exact.tree100 + sum_sizes (Dict.values (children (rollup Exact.tree100))) /\
  size Exact.scanned100 + 2 * sum_sizes (Dict.values (children Exact.tree100))
    <= size (rollup Exact.tree100).
Proof. exact (rollup_again_adds_children_again Exact.scanned100 eq_refl). Defined.

(** ** Sorting, maxima, counting *)

Section OrderFacts.
Context {A : Type} (key : A -> Z).

Lemma insert_desc_perm (a : A) (l : list A) :
  Permutation (insert_desc key a l) (a :: l).
Proof.
  induction l as [|b l IH]; simpl; [reflexivity|].
  destruct (key a <? key b); [|reflexivity].
  rewrite IH. apply perm_swap.
Qed.

Lemma sorted_desc_perm (l : list A) : Permutation (sorted_desc key l) l.
Proof.
  induction l as [|a l IH]; simpl; [reflexivity|].
  rewrite insert_desc_perm. now constructor.
Qed.

Lemma sorted_desc_In (a : A) (l : list A) : In a (sorted_desc key l) <-> In a l.
Proof.
  split; apply Permutation_in; [|symmetry]; apply sorted_desc_perm.
Qed.

Lemma sorted_desc_length (l : list A) : length (sorted_desc key l) = length l.
Proof. apply Permutation_length, sorted_desc_perm. Qed.

Lemma insert_desc_sorted (a : A) (l : list A) :
  StronglySorted (descending key) l -> StronglySorted (descending key) (insert_desc key a l).
Proof.
  induction 1 as [|b l Hl IH Hb]; simpl.
  - repeat constructor.
  - destruct (Z.ltb_spec (key a) (key b)) as [Hlt|Hge].
    + constructor; [exact IH|].
      rewrite List.Forall_forall in Hb |- *. intros c Hc.
      apply (Permutation_in _ (insert_desc_perm a l)) in Hc as [<-|Hc].
      * unfold descending. lia.
      * now apply Hb.
    + constructor; [now constructor|].
      constructor; [exact Hge|].
      rewrite List.Forall_forall in Hb |- *. intros c Hc.
      specialize (Hb c Hc). unfold descending in *. lia.
Qed.

Lemma sorted_desc_sorted (l : list A) : StronglySorted (descending key) (sorted_desc key l).
Proof.
  induction l as [|a l IH]; simpl; [constructor | now apply insert_desc_sorted].
Qed.

(** Stability: the elements of one key value keep their order. *)
Lemma insert_desc_stable (k : Z) (a : A) (l : list A) :
  List.filter (fun b => key b =? k) (insert_desc key a l) =
  List.filter (fun b => key b =? k) (a :: l).
Proof.
  induction l as [|b l IH]; [reflexivity|].
  cbn [insert_desc]. destruct (Z.ltb_spec (key a) (key b)) as [Hlt|Hge]; [|reflexivity].
  cbn [List.filter] in *. rewrite IH.
  destruct (Z.eqb_spec (key a) k), (Z.eqb_spec (key b) k); try reflexivity. lia.
Qed.

Lemma sorted_desc_stable (k : Z) (l : list A) :
  List.filter (fun b => key b =? k) (sorted_desc key l) =
  List.filter (fun b => key b =? k) l.
Proof.
  induction l as [|a l IH]; [reflexivity|].
  cbn [sorted_desc fold_right]. rewrite insert_desc_stable.
  cbn [List.filter]. fold (sorted_desc key l). now rewrite IH.
Qed.

Lemma max_by_spec (best : A) (l : list A) :
  In (max_by key best l) (best :: l) /\
  forall a, In a (best :: l) -> key a <= key (max_by key best l).
Proof.
  revert best. induction l as [|b l IH]; intros best; cbn [max_by].
  - split; [now left|]. intros a [<-|[]]. lia.
  - destruct (IH (if key best <? key b then b else best)) as [Hin Hmax].
    split.
    + destruct Hin as [Heq|Hin]; [|now right; right].
      rewrite <- Heq. destruct (key best <? key b); [right; now left | now left].
    + intros a Ha.
      assert (Hb : key (if key best <? key b then b else best)
                   <= key (max_by key (if key best <? key b then b else best) l))
        by (apply Hmax; now left).
      destruct Ha as [<-|[<-|Ha]].
      * destruct (Z.ltb_spec (key best) (key b)); lia.
      * destruct (Z.ltb_spec (key best) (key b)); lia.
      * apply Hmax. now right.
Qed.

End OrderFacts.

Lemma first_seen_In (e : string) (l : list string) : In e (first_seen l) <-> In e l.
Proof.
  induction l as [|a l IH]; simpl; [reflexivity|].
  rewrite filter_In, IH.
  destruct (String.eqb_spec e a) as [->|Hne]; simpl; intuition congruence.
Qed.

Lemma first_seen_NoDup (l : list string) : NoDup (first_seen l).
Proof.
  induction l as [|a l IH]; simpl; constructor.
  - rewrite list_elem_of_In, filter_In, String.eqb_refl. simpl. intuition discriminate.
  - apply NoDup_ListNoDup, List.NoDup_filter, NoDup_ListNoDup, IH.
Qed.

(** Appending an encounter: a key seen before changes nothing, a new one
    goes last. *)
Lemma first_seen_snoc (l : list string) (e : string) :
  first_seen (l ++ [e]) =
  if existsb (String.eqb e) l then first_seen l else (first_seen l ++ [e])%list.
Proof.
  induction l as [|a l IH]; [reflexivity|].
  cbn [app first_seen existsb]. rewrite IH.
  destruct (String.eqb_spec e a) as [->|Hne]; cbn [orb].
  - destruct (existsb (String.eqb a) l); [reflexivity|].
    rewrite List.filter_app. cbn [List.filter].
    rewrite String.eqb_refl. cbn [negb]. now rewrite app_nil_r.
  - destruct (existsb (String.eqb e) l); [reflexivity|].
    rewrite List.filter_app. cbn [List.filter].
    destruct (String.eqb_spec e a); [contradiction|]. reflexivity.
Qed.

Lemma existsb_eqb_In (e : string) (l : list string) :
  existsb (String.eqb e) l = true <-> In e l.
Proof.
  rewrite existsb_exists. split.
  - intros (x & Hx & Heq). apply String.eqb_eq in Heq. now subst.
  - intros H. exists e. split; [exact H | apply String.eqb_refl].
Qed.

Lemma Counter_fold (l : list string) (c : gmap string nat) (x : string) :
  default 0%nat
    (fold_left (fun c x => <[x := S (default 0%nat (c !! x))]> c) l c !! x) =
  (default 0%nat (c !! x) + count_occ string_dec l x)%nat.
Proof.
  revert c. induction l as [|a l IH]; intros c; cbn [fold_left count_occ]; [lia|].
  rewrite IH. destruct (string_dec a x) as [->|Hne].
  - rewrite lookup_insert_eq. simpl. lia.
  - now rewrite lookup_insert_ne.
Qed.

(** [Counter(l)[x]] is the number of occurrences of [x] in [l]. *)
Lemma Counter_get_count (l : list string) (x : string) :
  Counter_get (Counter l) x = Z.of_nat (count_occ string_dec l x).
Proof.
  unfold Counter_get, Counter. rewrite Counter_fold.
  now rewrite lookup_empty.
Qed.

Lemma eligible_map {A B : Type} (node : B -> FileObject) (h : A -> B) (m : Z) (l : list A) :
  eligible node m (map h l) = map h (eligible (fun a => node (h a)) m l).
Proof.
  unfold eligible. induction l as [|a l IH]; simpl; [reflexivity|].
  destruct (m <=? size (node (h a))); simpl; now rewrite IH.
Qed.

Lemma sorted_desc_map {A B : Type} (key : B -> Z) (h : A -> B) (l : list A) :
  sorted_desc key (map h l) = map h (sorted_desc (fun a => key (h a)) l).
Proof.
  induction l as [|a l IH]; [reflexivity|].
  cbn [map sorted_desc fold_right].
  fold (sorted_desc key (map h l)). fold (sorted_desc (fun a => key (h a)) l).
  rewrite IH. generalize (sorted_desc (fun a => key (h a)) l) as l'.
  induction l' as [|b l' IH']; [reflexivity|].
  cbn [map insert_desc]. destruct (key (h a) <? key (h b)); cbn [map]; [|reflexivity].
  now rewrite IH'.
Qed.

Lemma layout_children_In (m : Z) (file c : FileObject) :
  In c (layout_children m file) <->
  In c (Dict.values (children file)) /\ m <= size c.
Proof.
  unfold layout_children, eligible. rewrite sorted_desc_In, filter_In.
  unfold id. now rewrite Z.leb_le.
Qed.

(** Pairing each child with a function of it commutes with selecting and
    sorting the children. *)
Lemma layout_children_paired {B : Type} (f : FileObject -> B) (m : Z) (file : FileObject) :
  sorted_desc (fun c => size (fst c))
    (eligible fst m (map (fun kv => (snd kv, f (snd kv))) (children file))) =
  map (fun c => (c, f c)) (layout_children m file).
Proof.
  unfold layout_children, Dict.values.
  replace (map (fun kv : string * FileObject => (snd kv, f (snd kv))) (children file))
    with (map (fun c => (c, f c)) (map snd (children file)))
    by now rewrite map_map.
  rewrite eligible_map, sorted_desc_map. reflexivity.
Qed.

Lemma drawn_unfold (m : Z) (file : FileObject) :
  drawn m file = file :: flat_map (drawn m) (layout_children m file).
Proof.
  destruct file as [p s kids l e]. cbn [drawn]. f_equal.
  rewrite layout_children_paired.
  generalize (layout_children m (mkFileObject p s kids l e)) as cs.
  induction cs as [|c cs IH]; simpl; [reflexivity | now rewrite IH].
Qed.

Lemma colors_kept_refl (p : Process) : colors_kept p p.
Proof. intros k c H. exact H. Qed.

Lemma colors_kept_trans (p1 p2 p3 : Process) :
  colors_kept p1 p2 -> colors_kept p2 p3 -> colors_kept p1 p3.
Proof. intros H12 H23 k c H. apply H23, H12, H. Qed.

Section LayoutFacts.
Context {num : Type}.
Variable num_of_Z : Z -> num.
Variable int_truediv : Z -> Z -> num.
Variable num_mul : num -> num -> num.
Variable squarify : list num -> num -> num -> num -> num -> result (list (Rect num)).
Variable random_stream : nat -> Z.

Local Abbreviation draw := (draw int_truediv num_mul squarify random_stream).
Local Abbreviation node_state := (node_state (num:=num) random_stream).
Local Abbreviation new_map := (DirectoryMap_init num_of_Z int_truediv num_mul squarify random_stream).
Local Abbreviation areas := (target_areas int_truediv num_mul).
Local Abbreviation unit_rect := (unit_rect num_of_Z).
Local Abbreviation blank := (blank (num:=num)).
Local Abbreviation one_rect_per_area := (one_rect_per_area squarify).
Local Abbreviation process_step :=
  (process_step num_of_Z int_truediv num_mul squarify random_stream).

Lemma get_color_eq (ext : string) (p : Process) (v : DirectoryMap num) :
  get_color random_stream ext (p, v) =
  (Ok (color_of random_stream p ext),
   (process_after random_stream p ext,
    set_extension_count (extension_count v ++ [ext]) v)).
Proof.
  unfold get_color, color_of, process_after, bind, get_state.
  destruct (COLORS p !! ext) as [c|] eqn:E.
  - destruct (decide (is_Some (Some c))) as [_|Hn]; [|exfalso; apply Hn; eauto].
    cbn. now rewrite E.
  - destruct (decide (is_Some (@None color))) as [[? H]|_]; [discriminate|].
    cbn. now rewrite lookup_insert_eq.
Qed.

Lemma draw_with_eq (file : FileObject)
    (kids : list (FileObject * (Rect num -> M (St num) unit)))
    (rect : Rect num) (s : St num) :
  draw_with int_truediv num_mul squarify random_stream file kids rect s =
  draw_children int_truediv num_mul squarify file kids rect (node_state file rect s).
Proof.
  destruct s as [p v]. unfold draw_with. unfold bind at 1.
  rewrite get_color_eq. unfold bind at 1. cbn [get_state].
  unfold bind at 1. cbn [set_self modify].
  unfold bind at 1. unfold bind at 1. cbn [get_state].
  cbn [node_state legend set_patch_dict set_extension_count patch_dict].
  destruct (Dict.contains (legend v) (extension file)); reflexivity.
Qed.

Lemma scaled_sizes_eq {B : Type} (file : FileObject) (total : num)
    (cs : list (FileObject * B)) (s : St num) :
  list_comp cs (fun child =>
     bind (truediv int_truediv (size (fst child)) (size file))
          (fun q => ret (num_mul q total))) s =
  (match cs with
   | [] => Ok []
   | _ :: _ =>
       if size file =? 0 then Raise ZeroDivisionError
       else Ok (map (fun child => num_mul (int_truediv (size (fst child)) (size file)) total) cs)
   end, s).
Proof.
  induction cs as [|c cs IH]; [reflexivity|].
  cbn [list_comp]. unfold bind, truediv in *.
  destruct (size file =? 0); [reflexivity|].
  cbn [ret] in *. rewrite IH.
  destruct cs; reflexivity.
Qed.

Lemma for_each_paired (cs : list FileObject) (rects : list (Rect num)) (s : St num) :
  for_each (zip (map (fun c => (c, draw c)) cs) rects)
           (fun '(child, rect) => snd child rect) s =
  for_each (zip cs rects) (fun '(child, rect) => draw child rect) s.
Proof.
  revert rects s. induction cs as [|c cs IH]; intros rects s; [reflexivity|].
  destruct rects as [|r rects]; [reflexivity|].
  cbn [map zip zip_with for_each snd]. unfold bind.
  destruct (draw c r s) as [[[]|e] s']; [apply IH | reflexivity].
Qed.

(** [draw], one level unfolded: the node is registered, then the eligible
    children, largest first, get the rectangles that the geometry package
    returns for their target areas. *)
Lemma draw_unfold (file : FileObject) (rect : Rect num) (s : St num) :
  draw file rect s =
  let s1 := node_state file rect s in
  let children := layout_children (minsize (snd s1)) file in
  match children with
  | [] => (Ok tt, s1)
  | _ :: _ =>
      if size file =? 0 then (Raise ZeroDivisionError, s1)
      else match squarify (areas file rect children)
                          (x rect) (y rect) (dx rect) (dy rect) with
           | Ok rectangles =>
               for_each (zip children rectangles)
                        (fun '(child, rect) => draw child rect) s1
           | Raise e => (Raise e, s1)
           end
  end.
Proof.
  assert (Hd : draw file rect s =
               draw_with int_truediv num_mul squarify random_stream file
                 (map (fun kv => (snd kv, draw (snd kv))) (children file)) rect s)
    by (destruct file; reflexivity).
  rewrite Hd, draw_with_eq. clear Hd.
  cbv zeta. destruct (node_state file rect s) as [p1 v1]. cbn [snd].
  unfold draw_children. unfold bind at 1. cbn [get_state].
  pose proof (layout_children_paired draw (minsize v1) file) as Hp.
  destruct (eligible fst (minsize v1) _) as [|k ks] eqn:Hel.
  - cbn in Hp. destruct (layout_children (minsize v1) file); [reflexivity | discriminate].
  - rewrite Hp. destruct (layout_children (minsize v1) file) as [|c cs] eqn:Hcs.
    + apply (f_equal (@length _)) in Hp.
      rewrite sorted_desc_length in Hp. discriminate.
    + unfold bind at 1. rewrite scaled_sizes_eq. cbn [map].
      destruct (size file =? 0); [reflexivity|].
      unfold bind at 1. unfold lift_result.
      change (num_mul (int_truediv (size (fst (c, draw c))) (size file))
                (num_mul (dx rect) (dy rect))
              :: map (fun child => num_mul (int_truediv (size (fst child)) (size file))
                                     (num_mul (dx rect) (dy rect)))
                   (map (fun c0 => (c0, draw c0)) cs))
        with (map (fun child => num_mul (int_truediv (size (fst child)) (size file))
                                  (num_mul (dx rect) (dy rect)))
                (map (fun c0 => (c0, draw c0)) (c :: cs))).
      rewrite map_map. cbn [fst]. fold (areas file rect (c :: cs)).
      destruct (squarify _ _ _ _ _) as [rects|e]; [|reflexivity].
      apply (for_each_paired (c :: cs)).
Qed.

Lemma extends_refl (s : St num) : extends s s.
Proof.
  split; [apply colors_kept_refl | reflexivity | | auto].
  exists []. split; [now rewrite app_nil_r | constructor].
Qed.

Lemma extends_trans (s1 s2 s3 : St num) :
  extends s1 s2 -> extends s2 s3 -> extends s1 s3.
Proof.
  intros [C1 M1 (n1 & T1 & F1) I1] [C2 M2 (n2 & T2 & F2) I2].
  split; [eapply colors_kept_trans; eauto | congruence | | auto].
  exists (n1 ++ n2)%list. split.
  - now rewrite T2, T1, app_assoc.
  - apply Forall_app. split; [exact F1|]. now rewrite M1 in F2.
Qed.

Lemma node_state_spec (file : FileObject) (rect : Rect num) (s : St num) :
  let s1 := node_state file rect s in
  colors_kept (fst s) (fst s1) /\
  minsize (snd s1) = minsize (snd s) /\
  (exists patch,
     patch_dict (snd s1) = (patch_dict (snd s) ++ [(patch, file)])%list /\
     COLORS (fst s1) !! extension file = Some (facecolor patch)) /\
  (view_inv (snd s) -> view_inv (snd s1)).
Proof.
  destruct s as [p v]. cbn [fst snd].
  assert (Hc : colors_kept p (process_after random_stream p (extension file)) /\
               COLORS (process_after random_stream p (extension file)) !! extension file
               = Some (color_of random_stream p (extension file))).
  { unfold process_after, color_of.
    destruct (COLORS p !! extension file) as [c|] eqn:E.
    - split; [apply colors_kept_refl | exact E].
    - split; [|apply lookup_insert_eq].
      intros k c Hk. cbn [COLORS]. rewrite lookup_insert_ne; [exact Hk|].
      intros <-. congruence. }
  destruct Hc as [Hkept Hcol].
  cbn [node_state]. cbn [legend set_patch_dict set_extension_count patch_dict].
  assert (Hinv : forall lg : Dict.t (Patch num),
            view_inv v ->
            lg = (if Dict.contains (legend v) (extension file) then legend v
                  else Dict.set (legend v) (extension file)
                         {| patch_id := length (patch_dict v);
                            xy := (x rect, y rect); width := dx rect; height := dy rect;
                            facecolor := color_of random_stream p (extension file) |}) ->
            Dict.keys lg = first_seen (extension_count v ++ [extension file])).
  { intros lg [Hk Hx] ->. rewrite first_seen_snoc.
    assert (Heq : Dict.contains (legend v) (extension file) =
                  existsb (String.eqb (extension file)) (extension_count v)).
    { apply eq_true_iff_eq.
      rewrite DictFacts.contains_in_keys, existsb_eqb_In, Hk. apply first_seen_In. }
    rewrite <- Heq. destruct (Dict.contains (legend v) (extension file)) eqn:Hcon.
    - exact Hk.
    - rewrite DictFacts.keys_set, Hcon. now rewrite Hk. }
  destruct (Dict.contains (legend v) (extension file)) eqn:Hcon; cbn [fst snd].
  - split; [exact Hkept|]. split; [reflexivity|]. split.
    + eexists. split; [reflexivity | exact Hcol].
    + intros Hv. split; cbn [legend extension_count patch_dict set_patch_dict set_extension_count].
      * now apply Hinv.
      * destruct Hv as [_ Hx]. rewrite map_app. cbn. now rewrite Hx.
  - split; [|split; [reflexivity|split]].
    + intros k c Hk. cbn [COLORS].
      destruct (decide (extension file = k)) as [<-|Hne].
      * rewrite lookup_insert_eq. f_equal.
        apply Hkept in Hk. congruence.
      * rewrite lookup_insert_ne by exact Hne. now apply Hkept.
    + eexists. split; [reflexivity|]. cbn [COLORS facecolor]. apply lookup_insert_eq.
    + intros Hv. split;
        cbn [legend extension_count patch_dict set_legend set_patch_dict set_extension_count].
      * now apply Hinv.
      * destruct Hv as [_ Hx]. rewrite map_app. cbn. now rewrite Hx.
Qed.

Lemma node_extends (file : FileObject) (rect : Rect num) (s : St num) :
  minsize (snd s) <= size file -> extends s (node_state file rect s).
Proof.
  intros Hsz.
  destruct (node_state_spec file rect s) as (Hc & Hm & (patch & Ht & _) & Hi).
  split; [exact Hc | exact Hm | | exact Hi].
  eexists. split; [exact Ht|]. repeat constructor. exact Hsz.
Qed.

Lemma for_each_extends {B : Type} (m : Z) (l : list B) (body : B -> M (St num) unit) :
  (forall b, In b l -> forall s0, minsize (snd s0) = m -> extends s0 (snd (body b s0))) ->
  forall s, minsize (snd s) = m -> extends s (snd (for_each l body s)).
Proof.
  induction l as [|b l IH]; intros Hbody s Hm; cbn [for_each].
  - apply extends_refl.
  - unfold bind. pose proof (Hbody b (or_introl eq_refl) s Hm) as Hb.
    destruct (body b s) as [[[]|e] s'] eqn:E; cbn [snd] in *; [|exact Hb].
    eapply extends_trans; [exact Hb|].
    apply IH; [intros b' Hb' s0 H0; apply Hbody; [now right | exact H0]|].
    transitivity (minsize (snd s)); [apply Hb | exact Hm].
Qed.

(** Below a node, [draw] only adds children that reach the threshold. *)
Lemma draw_extends (file : FileObject) :
  forall rect s, extends (node_state file rect s) (snd (draw file rect s)).
Proof.
  induction file as [p sz kids l e IH] using FileObject_tree_ind.
  intros rect s. rewrite draw_unfold. cbv zeta.
  set (file := mkFileObject p sz kids l e) in *.
  set (s1 := node_state file rect s).
  destruct (layout_children (minsize (snd s1)) file) as [|c cs] eqn:Hcs;
    [apply extends_refl|].
  destruct (size file =? 0); [apply extends_refl|].
  destruct (squarify _ _ _ _ _) as [rects|err]; [|apply extends_refl].
  apply (for_each_extends (minsize (snd s1))); [|reflexivity].
  intros [child r] Hin s0 Hm.
  apply in_combine_l in Hin. rewrite <- Hcs in Hin.
  apply layout_children_In in Hin as [Hchild Hsz].
  unfold Dict.values in Hchild. apply in_map_iff in Hchild as (kv & <- & Hkv).
  rewrite List.Forall_forall in IH.
  eapply extends_trans; [|apply (IH kv Hkv)].
  apply node_extends. now rewrite Hm.
Qed.

Lemma draw_minsize (file : FileObject) (rect : Rect num) (s : St num) :
  minsize (snd (snd (draw file rect s))) = minsize (snd s).
Proof.
  rewrite (ext_minsize _ _ (draw_extends file rect s)).
  apply (node_state_spec file rect s).
Qed.

Lemma draw_colors_kept (file : FileObject) (rect : Rect num) (s : St num) :
  colors_kept (fst s) (fst (snd (draw file rect s))).
Proof.
  eapply colors_kept_trans; [apply (node_state_spec file rect s)|].
  apply (ext_colors _ _ (draw_extends file rect s)).
Qed.

(** The table after [draw file]: the node itself, then nodes that reach
    the threshold. *)
Lemma draw_table (file : FileObject) (rect : Rect num) (s : St num) :
  exists patch rest,
    patch_dict (snd (snd (draw file rect s))) =
      (patch_dict (snd s) ++ (patch, file) :: rest)%list /\
    Forall (fun e => minsize (snd s) <= size (snd e)) rest.
Proof.
  destruct (node_state_spec file rect s) as (_ & Hm & (patch & Ht & _) & _).
  destruct (ext_table _ _ (draw_extends file rect s)) as (rest & Hr & Hall).
  exists patch, rest. split.
  - rewrite Hr, Ht, <- app_assoc. reflexivity.
  - now rewrite Hm in Hall.
Qed.

Lemma draw_view_inv (file : FileObject) (rect : Rect num) (s : St num) :
  view_inv (snd s) -> view_inv (snd (snd (draw file rect s))).
Proof.
  intros H. apply (ext_inv _ _ (draw_extends file rect s)).
  now apply (node_state_spec file rect s).
Qed.

Lemma for_each_draw_nodes (m : Z) (cs : list FileObject) :
  (forall c, In c cs -> forall r s0, minsize (snd s0) = m ->
     fst (draw c r s0) = Ok tt ->
     map snd (patch_dict (snd (snd (draw c r s0)))) =
     (map snd (patch_dict (snd s0)) ++ drawn m c)%list) ->
  forall rects s, length rects = length cs -> minsize (snd s) = m ->
    fst (for_each (zip cs rects) (fun '(child, rect) => draw child rect) s) = Ok tt ->
    map snd (patch_dict (snd (snd
      (for_each (zip cs rects) (fun '(child, rect) => draw child rect) s)))) =
    (map snd (patch_dict (snd s)) ++ flat_map (drawn m) cs)%list.
Proof.
  induction cs as [|c cs IH]; intros Hdraw rects s Hlen Hm Hok.
  - cbn. now rewrite app_nil_r.
  - destruct rects as [|r rects]; [discriminate|].
    cbn [zip zip_with for_each flat_map] in *. unfold bind in *.
    pose proof (Hdraw c (or_introl eq_refl) r s Hm) as Hc.
    pose proof (draw_minsize c r s) as Hm'.
    destruct (draw c r s) as [[[]|e] s'] eqn:E; cbn [fst snd] in *; [|discriminate].
    rewrite IH; try assumption.
    + rewrite Hc by reflexivity. now rewrite <- app_assoc.
    + intros c' Hc'. apply Hdraw. now right.
    + now injection Hlen.
    + congruence.
Qed.

Lemma draw_nodes (Hsq : one_rect_per_area) (file : FileObject) :
  forall rect s, fst (draw file rect s) = Ok tt ->
    map snd (patch_dict (snd (snd (draw file rect s)))) =
    (map snd (patch_dict (snd s)) ++ drawn (minsize (snd s)) file)%list.
Proof.
  induction file as [p sz kids l e IH] using FileObject_tree_ind.
  intros rect s. set (file := mkFileObject p sz kids l e) in *.
  destruct (node_state_spec file rect s) as (_ & Hm & (patch & Ht & _) & _).
  rewrite draw_unfold, drawn_unfold. cbv zeta. rewrite Hm.
  set (s1 := node_state file rect s) in *.
  assert (Hs1 : map snd (patch_dict (snd s1)) =
                (map snd (patch_dict (snd s)) ++ [file])%list)
    by (rewrite Ht, map_app; reflexivity).
  destruct (layout_children (minsize (snd s)) file) as [|c cs] eqn:Hcs.
  - intros _. cbn [snd flat_map]. exact Hs1.
  - destruct (size file =? 0); [discriminate|].
    destruct (squarify _ _ _ _ _) as [rects|err] eqn:Hrects; [|discriminate].
    intros Hok. apply Hsq in Hrects.
    unfold target_areas in Hrects. rewrite length_map in Hrects.
    rewrite (for_each_draw_nodes (minsize (snd s))); try assumption.
    + rewrite Hs1, <- app_assoc. reflexivity.
    + intros c' Hc' r s0 Hm0 Hok0. rewrite <- Hcs in Hc'.
      apply layout_children_In in Hc' as [Hchild _].
      unfold Dict.values in Hchild. apply in_map_iff in Hchild as (kv & <- & Hkv).
      rewrite List.Forall_forall in IH.
      rewrite (IH kv Hkv r s0 Hok0). now rewrite Hm0.
Qed.

(** *** A whole pass: [DirectoryMap.__init__] *)

Lemma list_comp_get (d : Dict.t (Patch num)) (extensions : list string) (s : St num) :
  list_comp extensions
    (fun ext => match Dict.get d ext with
                | Some a => ret a
                | None => raise KeyError
                end) s = (artists_of d extensions, s).
Proof.
  induction extensions as [|ext rest IH]; [reflexivity|].
  cbn [list_comp artists_of]. unfold bind in *.
  destruct (Dict.get d ext); [|reflexivity].
  cbn [ret]. rewrite IH. now destruct (artists_of d rest).
Qed.

Lemma artists_of_keys (d : Dict.t (Patch num)) (extensions : list string) :
  (forall e, In e extensions -> In e (Dict.keys d)) ->
  exists artists,
    artists_of d extensions = Ok artists /\
    Forall2 (fun a e => Dict.get d e = Some a) artists extensions.
Proof.
  induction extensions as [|ext rest IH]; intros Hin.
  - exists []. split; [reflexivity | constructor].
  - destruct IH as (l & Hl & Hall); [intros; apply Hin; now right|].
    assert (Hc : Dict.contains d ext = true)
      by (apply DictFacts.contains_in_keys, Hin; now left).
    unfold Dict.contains in Hc. cbn [artists_of]. rewrite Hl.
    destruct (Dict.get d ext) as [a|] eqn:E; [|discriminate].
    exists (a :: l). split; [reflexivity | now constructor].
Qed.

Lemma make_legend_eq (s : St num) :
  make_legend s =
  match artists_of (legend (snd s)) (legend_order (snd s)) with
  | Ok artists =>
      (Ok tt, (fst s, set_ax_legend (artists, legend_order (snd s)) (snd s)))
  | Raise e => (Raise e, s)
  end.
Proof.
  destruct s as [p v]. unfold make_legend. unfold bind at 1. cbn [get_state].
  unfold bind at 1. rewrite list_comp_get. cbn [snd fst].
  fold (legend_order v). now destruct (artists_of (legend v) (legend_order v)).
Qed.

(** [make_legend] never raises. *)
Lemma make_legend_returns (s : St num) :
  exists artists,
    artists_of (legend (snd s)) (legend_order (snd s)) = Ok artists /\
    Forall2 (fun a e => Dict.get (legend (snd s)) e = Some a)
            artists (legend_order (snd s)).
Proof.
  apply artists_of_keys. intros e He.
  unfold legend_order in He. now apply sorted_desc_In in He.
Qed.

Lemma new_map_eq (root : FileObject) (res : Z) (p : Process) :
  new_map root res p =
  if res =? 0 then (Raise ZeroDivisionError, p)
  else
    match draw root unit_rect (p, set_minsize (size root / res) (blank root res)) with
    | (Ok _, s) =>
        match artists_of (legend (snd s)) (legend_order (snd s)) with
        | Ok artists =>
            (Ok (set_click_list []
                   (set_ax_legend (artists, legend_order (snd s)) (snd s))),
             fst s)
        | Raise e => (Raise e, fst s)
        end
    | (Raise e, s) => (Raise e, fst s)
    end.
Proof.
  unfold DirectoryMap_init. unfold bind at 1. unfold floordiv.
  destruct (res =? 0); [reflexivity|].
  cbn [ret]. unfold bind at 1. cbn [set_self modify].
  unfold bind at 1. fold unit_rect. fold (blank root res).
  destruct (draw root unit_rect _) as [[[]|e] [p1 v1]]; [|reflexivity].
  unfold bind at 1. rewrite make_legend_eq. cbn [fst snd].
  now destruct (artists_of (legend v1) (legend_order v1)).
Qed.

Lemma new_map_colors_kept (root : FileObject) (res : Z) (p : Process) :
  colors_kept p (snd (new_map root res p)).
Proof.
  rewrite new_map_eq. destruct (res =? 0); [apply colors_kept_refl|].
  pose proof (draw_colors_kept root unit_rect
                (p, set_minsize (size root / res) (blank root res))) as H.
  destruct (draw root unit_rect _) as [[[]|e] s]; cbn [fst snd] in *; [|exact H].
  now destruct (artists_of _ _).
Qed.

(** C3.  In a pass that returns, the threshold is the integer quotient
    [root.size // resolution], fixed for the whole pass.  At every node the
    children that take part in the layout ([layout_children], see
    [draw_unfold]) are exactly the direct children whose size reaches the
    threshold.  The table holds the root first, and every other node in it
    reaches the threshold, so a child below it is at no depth in the table.
    With a geometry package that returns one rectangle per area, the nodes
    of the table are exactly those of the pruned tree, in drawing order. *)
Theorem pruned_children_never_drawn (root : FileObject) (res : Z)
    (p p' : Process) (v : DirectoryMap num) :
  new_map root res p = (Ok v, p') ->
  res <> 0 /\
  minsize v = size root / res /\
  (forall node child,
     In child (layout_children (minsize v) node) <->
     In child (Dict.values (children node)) /\ minsize v <= size child) /\
  (exists patch rest,
     patch_dict v = (patch, root) :: rest /\
     Forall (fun e => minsize v <= size (snd e)) rest) /\
  (one_rect_per_area -> map snd (patch_dict v) = drawn (minsize v) root).
Proof.
  intros H. rewrite new_map_eq in H.
  destruct (Z.eqb_spec res 0) as [|Hres]; [discriminate|].
  set (s0 := (p, set_minsize (size root / res) (blank root res))) in *.
  pose proof (draw_table root unit_rect s0) as (patch & rest & Ht & Hall).
  pose proof (draw_minsize root unit_rect s0) as Hm.
  pose proof (fun Hsq => draw_nodes Hsq root unit_rect s0) as Hn.
  destruct (draw root unit_rect s0) as [[[]|e] s] eqn:E; [|discriminate].
  destruct (artists_of _ _) as [artists|e]; [|discriminate].
  injection H as <- <-. cbn [fst snd minsize patch_dict set_click_list set_ax_legend] in *.
  split; [exact Hres|]. split; [exact Hm|]. rewrite Hm.
  split; [intros node child; apply layout_children_In|].
  split; [now exists patch, rest|].
  intros Hsq. now rewrite (Hn Hsq eq_refl).
Qed.

(** C9.  In a pass that returns, the legend shows every distinct extension
    that was encountered exactly once, each with the artist the legend
    holds for it; the entries are in descending order of the number of
    [get_color] calls for the extension (one per drawn node), and the
    extensions of one frequency are in the order of first encounter. *)
Theorem legend_sorted_by_frequency (root : FileObject) (res : Z)
    (p p' : Process) (v : DirectoryMap num) :
  new_map root res p = (Ok v, p') ->
  let shown := snd (ax_legend v) in
  let freq := Counter_get (Counter (extension_count v)) in
  (forall e, freq e = Z.of_nat (count_occ string_dec (extension_count v) e)) /\
  extension_count v = map (fun e => extension (snd e)) (patch_dict v) /\
  NoDup shown /\
  Permutation shown (first_seen (extension_count v)) /\
  Forall2 (fun a e => Dict.get (legend v) e = Some a) (fst (ax_legend v)) shown /\
  StronglySorted (fun a b => freq b <= freq a) shown /\
  (forall k, List.filter (fun e => freq e =? k) shown =
             List.filter (fun e => freq e =? k) (first_seen (extension_count v))).
Proof.
  intros H. rewrite new_map_eq in H.
  destruct (res =? 0); [discriminate|].
  set (s0 := (p, set_minsize (size root / res) (blank root res))) in *.
  assert (Hinv0 : view_inv (snd s0)) by (split; reflexivity).
  pose proof (draw_view_inv root unit_rect s0 Hinv0) as [Hkeys Hcount].
  destruct (draw root unit_rect s0) as [[[]|e] s] eqn:E; [|discriminate].
  destruct (make_legend_returns s) as (artists & Ha & Hall).
  rewrite Ha in H. injection H as <- <-. cbv zeta.
  cbn [fst snd ax_legend extension_count legend patch_dict
       set_click_list set_ax_legend] in *.
  unfold legend_order in *. rewrite Hkeys in *.
  split; [intros e; apply Counter_get_count|].
  split; [exact Hcount|].
  split.
  { apply NoDup_ListNoDup.
    eapply Permutation_NoDup; [symmetry; apply sorted_desc_perm|].
    apply NoDup_ListNoDup, first_seen_NoDup. }
  split; [apply sorted_desc_perm|].
  split; [exact Hall|].
  split; [apply sorted_desc_sorted | intros k; apply sorted_desc_stable].
Qed.

(** *** The pick queue *)

Local Abbreviation tick := (ontime num_of_Z int_truediv num_mul squarify random_stream).

Lemma ontime_eq (p : Process) (v : DirectoryMap num) :
  tick (p, v) =
  match click_list v with
  | [] => (Ok [], (p, v))
  | first :: rest =>
      let pick := max_by path_length first rest in
      let v' := set_ax_title (label (fst pick)) (set_click_list [] v) in
      let browse := if snd pick =? 2 then [TreeWindow (fst pick)] else [] in
      if snd pick =? 3
      then match new_map (fst pick) (resolution v) p with
           | (Ok w, p') => (Ok (MapWindow w :: browse), (p', v'))
           | (Raise e, p') => (Raise e, (p', v'))
           end
      else (Ok browse, (p, v'))
  end.
Proof.
  unfold ontime. unfold bind at 1. cbn [get_state].
  destruct (click_list v) as [|first rest]; [reflexivity|].
  fold path_length. cbv zeta.
  destruct (max_by path_length first rest) as [object button].
  unfold bind at 1. cbn [set_self modify].
  unfold bind at 1. cbn [set_self modify].
  unfold bind at 1. cbn [fst snd].
  destruct (button =? 3).
  - cbn [resolution set_click_list].
    destruct (new_map object (resolution v) p) as [[w|e] p1]; [|reflexivity].
    unfold bind. now destruct (button =? 2).
  - cbn [ret]. unfold bind. now destruct (button =? 2).
Qed.

(** The view after a tick. *)
Lemma tick_view (p : Process) (v : DirectoryMap num) :
  snd (snd (tick (p, v))) =
  match click_list v with
  | [] => v
  | first :: rest =>
      set_ax_title (label (fst (max_by path_length first rest)))
                   (set_click_list [] v)
  end.
Proof.
  rewrite ontime_eq. destruct (click_list v) as [|first rest]; [reflexivity|].
  cbv zeta. destruct (snd (max_by path_length first rest) =? 3); [|reflexivity].
  now destruct (new_map _ _ p) as [[w|e] p1].
Qed.

(** C5.  A tick on an empty queue changes nothing.  Otherwise the tick
    resolves to a queued pick whose path is at least as long as the path
    of every queued pick, whatever the order of the queue; the title
    becomes the label of its node and the queue is left empty. *)
Theorem ontime_resolves_longest_path (p : Process) (v : DirectoryMap num) :
  match click_list v with
  | [] => tick (p, v) = (Ok [], (p, v))
  | _ :: _ =>
      exists object button,
        In (object, button) (click_list v) /\
        (forall o b, In (o, b) (click_list v) ->
           PyStr.len (path o) <= PyStr.len (path object)) /\
        snd (snd (tick (p, v))) =
          set_ax_title (label object) (set_click_list [] v) /\
        ax_title (snd (snd (tick (p, v)))) = label object /\
        click_list (snd (snd (tick (p, v)))) = []
  end.
Proof.
  rewrite ontime_eq. destruct (click_list v) as [|first rest] eqn:Hq; [reflexivity|].
  destruct (max_by_spec path_length first rest) as [Hin Hmax].
  cbv zeta. destruct (max_by path_length first rest) as [object button].
  exists object, button. cbn [fst snd].
  split; [exact Hin|]. split; [intros o b Hob; apply (Hmax (o, b) Hob)|].
  destruct (button =? 3).
  - destruct (new_map object (resolution v) p) as [[w|e] p1]; repeat split.
  - repeat split.
Qed.

Lemma ontime_colors_kept (p : Process) (v : DirectoryMap num) :
  colors_kept p (fst (snd (tick (p, v)))).
Proof.
  rewrite ontime_eq. destruct (click_list v) as [|first rest];
    [apply colors_kept_refl|].
  cbv zeta. destruct (snd (max_by path_length first rest) =? 3);
    [|apply colors_kept_refl].
  pose proof (new_map_colors_kept (fst (max_by path_length first rest))
                (resolution v) p) as H.
  now destruct (new_map _ _ p) as [[w|e] p1].
Qed.

(** *** The colour map over the life of the process *)

Lemma process_step_colors_kept (p p' : Process) :
  process_step p p' -> colors_kept p p'.
Proof.
  intros [ext v|file rect v|root res|a button v|v].
  - rewrite get_color_eq. cbn [fst snd].
    unfold process_after. destruct (COLORS p !! ext) eqn:E;
      [apply colors_kept_refl|].
    intros k c Hk. cbn [COLORS]. rewrite lookup_insert_ne; [exact Hk | congruence].
  - apply (draw_colors_kept file rect (p, v)).
  - apply new_map_colors_kept.
  - destruct a as [a|]; [|apply colors_kept_refl].
    unfold onpick, bind. cbn [get_state snd].
    destruct (patch_lookup (patch_dict v) a); apply colors_kept_refl.
  - apply ontime_colors_kept.
Qed.

(** C6.  [COLORS] starts with the directory key mapped to the gray
    [(.2, .2, .2)].  Whatever operations of whatever views run, an entry
    that is in [COLORS] is still there with the same colour afterwards, and
    [get_color] then returns that colour.  For a key that is not in
    [COLORS], [get_color] returns the colour made from the next three draws
    of the generator and stores it under the key. *)
Theorem colors_never_change :
  COLORS0 !! DIR = Some (1 # 5, 1 # 5, 1 # 5)%Q /\
  (forall p p' k c,
     rtc process_step p p' -> COLORS p !! k = Some c ->
     COLORS p' !! k = Some c /\
     forall v : DirectoryMap num, exists v',
       get_color random_stream k (p', v) = (Ok c, (p', v'))) /\
  (forall p k (v : DirectoryMap num),
     COLORS p !! k = None ->
     exists p' v',
       get_color random_stream k (p, v) =
         (Ok (fresh_color random_stream (rng p)), (p', v')) /\
       COLORS p' = <[k := fresh_color random_stream (rng p)]> (COLORS p)).
Proof.
  split; [reflexivity|]. split.
  - intros p p' k c Hsteps Hk.
    assert (Hk' : COLORS p' !! k = Some c).
    { induction Hsteps as [|p1 p2 p3 Hstep _ IH]; [exact Hk|].
      apply IH. now apply (process_step_colors_kept _ _ Hstep). }
    split; [exact Hk'|]. intros v. eexists.
    rewrite get_color_eq. unfold color_of, process_after. now rewrite Hk'.
  - intros p k v Hk. eexists _, _.
    rewrite get_color_eq. unfold color_of, process_after. rewrite Hk.
    split; reflexivity.
Qed.

End LayoutFacts.

(** ** Target areas *)

(** Without rounding the areas of a node's children are shares of the
    area: together, the part of it that the children have of the size of
    the node. *)
Lemma exact_shares_sum (file : FileObject) (A : Q) (cs : list FileObject) :
  size file <> 0 ->
  (Qsum (map (exact_share file A) cs) * inject_Z (size file)
   == inject_Z (sum_sizes cs) * A)%Q.
Proof.
  intros Hf.
  assert (Hq : ~ (inject_Z (size file) == 0)%Q).
  { intros H. apply Hf. unfold Qeq in H. simpl in H. lia. }
  induction cs as [|c cs IH]; cbn [map Qsum fold_right sum_sizes].
  - unfold inject_Z. ring.
  - fold (Qsum (map (exact_share file A) cs)). fold (sum_sizes cs).
    rewrite Qmult_plus_distr_l, IH, inject_Z_plus.
    unfold exact_share. field. exact Hq.
Qed.

Lemma exact_shares_below (file : FileObject) (A : Q) (cs : list FileObject) :
  0 < size file -> (0 < A)%Q -> sum_sizes cs < size file ->
  (Qsum (map (exact_share file A) cs) < A)%Q.
Proof.
  intros Hpos Harea Hless.
  assert (Hf : size file <> 0) by lia.
  pose proof (exact_shares_sum file A cs Hf) as Hsum.
  assert (Hq : (0 < inject_Z (size file))%Q) by (unfold Qlt; simpl; lia).
  apply (Qmult_lt_r _ _ (inject_Z (size file)) Hq).
  rewrite Hsum, (Qmult_comm A).
  apply Qmult_lt_compat_r; [exact Harea|].
  rewrite <- Zlt_Qlt. exact Hless.
Qed.

(** With numbers that are never rounded, the areas asked for are these
    shares. *)
Lemma areas_are_shares (file : FileObject) (rect : Rect Q) (cs : list FileObject) :
  Forall2 (fun a child => (a == exact_share file (dx rect * dy rect) child)%Q)
          (target_areas Exact.int_truediv Exact.mul file rect cs) cs.
Proof.
  induction cs as [|c cs IH]; cbn [target_areas map]; constructor; [|exact IH].
  unfold Exact.mul, Exact.int_truediv, exact_share. now rewrite !Qred_correct.
Qed.

Section AreaScaling.
Context {num : Type}.
Variable int_truediv : Z -> Z -> num.
Variable num_mul : num -> num -> num.
Variable squarify : list num -> num -> num -> num -> num -> result (list (Rect num)).
Variable random_stream : nat -> Z.

Local Abbreviation draw := (draw int_truediv num_mul squarify random_stream).
Local Abbreviation node_state := (node_state (num:=num) random_stream).

(** What [draw] asks the geometry package for at a node of a size that is
    not 0, whatever the numbers and their operations are. *)
Lemma draw_shares (file : FileObject) (rect : Rect num) (s : St num) :
  size file <> 0 ->
  let s1 := node_state file rect s in
  let children := layout_children (minsize (snd s)) file in
  let area := num_mul (dx rect) (dy rect) in
  let requested :=
    map (fun child => num_mul (int_truediv (size child) (size file)) area)
        children in
  draw file rect s =
    match children with
    | [] => (Ok tt, s1)
    | _ :: _ =>
        match squarify requested (x rect) (y rect) (dx rect) (dy rect) with
        | Ok rectangles =>
            for_each (zip children rectangles)
                     (fun '(child, rect) => draw child rect) s1
        | Raise e => (Raise e, s1)
        end
    end.
Proof.
  intros Hf. cbv zeta. rewrite draw_unfold. cbv zeta.
  destruct (node_state_spec random_stream file rect s) as (_ & -> & _).
  destruct (layout_children (minsize (snd s)) file); [reflexivity|].
  destruct (Z.eqb_spec (size file) 0); [contradiction | reflexivity].
Qed.


End AreaScaling.


(** ** The concrete pass *)

Lemma strips_one_rect_per_area : one_rect_per_area Exact.strips.
Proof.
  intros sizes x0 y0 dx0 dy0 rects [= <-].
  revert x0. induction sizes as [|a sizes IH]; intros x0; cbn; [reflexivity|].
  now rewrite IH.
Qed.

Lemma pass100_returns :
  Exact.new_map Exact.tree100 10 Exact.process0 = (Ok Exact.view100, snd Exact.pass100).
Proof. vm_compute. reflexivity. Qed.

(** Root of size 100, resolution 10, children of sizes 50, 30, 15 and 5:
    the table holds the root, the three large children and the one large
    file of [A]. *)
Example table100 :
  map (fun e => (path (snd e), size (snd e))) (patch_dict Exact.view100) =
  [("C:\r", 100); ("C:\r\A", 50); ("C:\r\A\big.bin", 46);
   ("C:\r\B.bin", 30); ("C:\r\C.TXT", 15)].
Proof. vm_compute. reflexivity. Qed.

Example legend100 :
  extension_count Exact.view100 = [DIR; DIR; "bin"; "bin"; "txt"] /\
  snd (ax_legend Exact.view100) = [DIR; "bin"; "txt"].
Proof. vm_compute. split; reflexivity. Qed.

Lemma pruned_children_never_drawn_witness :
  10 <> 0 /\
  minsize Exact.view100 = size Exact.tree100 / 10 /\
  (forall node child,
     In child (layout_children (minsize Exact.view100) node) <->
     In child (Dict.values (children node)) /\ minsize Exact.view100 <= size child) /\
  (exists patch rest,
     patch_dict Exact.view100 = (patch, Exact.tree100) :: rest /\
     Forall (fun e => minsize Exact.view100 <= size (snd e)) rest) /\
  (one_rect_per_area Exact.strips ->
   map snd (patch_dict Exact.view100) = drawn (minsize Exact.view100) Exact.tree100).
Proof.
  apply (pruned_children_never_drawn inject_Z Exact.int_truediv Exact.mul
           Exact.strips Exact.stream Exact.tree100 10 Exact.process0
           (snd Exact.pass100) Exact.view100).
  vm_compute. reflexivity.
Defined.

Lemma legend_sorted_by_frequency_witness :
  let shown := snd (ax_legend Exact.view100) in
  let freq := Counter_get (Counter (extension_count Exact.view100)) in
  (forall e, freq e = Z.of_nat (count_occ string_dec (extension_count Exact.view100) e)) /\
  extension_count Exact.view100 =
    map (fun e => extension (snd e)) (patch_dict Exact.view100) /\
  NoDup shown /\
  Permutation shown (first_seen (extension_count Exact.view100)) /\
  Forall2 (fun a e => Dict.get (legend Exact.view100) e = Some a)
          (fst (ax_legend Exact.view100)) shown /\
  StronglySorted (fun a b => freq b <= freq a) shown /\
  (forall k, List.filter (fun e => freq e =? k) shown =
             List.filter (fun e => freq e =? k)
               (first_seen (extension_count Exact.view100))).
Proof.
  apply (legend_sorted_by_frequency inject_Z Exact.int_truediv Exact.mul
           Exact.strips Exact.stream Exact.tree100 10 Exact.process0
           (snd Exact.pass100) Exact.view100).
  vm_compute. reflexivity.
Defined.

Lemma colors_never_change_witness :
  COLORS (snd Exact.pass100) !! DIR = Some (1 # 5, 1 # 5, 1 # 5)%Q /\
  forall v : DirectoryMap Q, exists v',
    get_color Exact.stream DIR (snd Exact.pass100, v) =
      (Ok (1 # 5, 1 # 5, 1 # 5)%Q, (snd Exact.pass100, v')).
Proof.
  destruct (colors_never_change inject_Z Exact.int_truediv Exact.mul
              Exact.strips Exact.stream) as (_ & Hkept & _).
  apply (Hkept Exact.process0 (snd Exact.pass100) DIR); [|reflexivity].
  apply rtc_once. apply (step_new_map _ _ _ _ _ _ Exact.tree100 10).
Defined.


(** Picks on paths of lengths 5, 12 and 9, in any order, resolve to the
    path of length 12. *)
Example tick_5_12_9 :
  let a := Exact.file "C:\r5" 1 in
  let b := Exact.file "C:\r\A\b.bin" 2 in
  let c := Exact.file "C:\r\A\x9" 3 in
  map PyStr.len [path a; path b; path c] = [5; 12; 9] /\
  forall q, Permutation q [(a, 1); (b, 1); (c, 1)] ->
    let v := set_click_list q (blank Exact.tree100 10) in
    ax_title (snd (snd (Exact.tick (Exact.process0, v)))) = label b /\
    click_list (snd (snd (Exact.tick (Exact.process0, v)))) = [].
Proof.
  intros a b c. split; [reflexivity|].
  intros q Hq v. unfold Exact.tick. rewrite tick_view.
  cbn [click_list v set_click_list].
  destruct q as [|first rest];
    [apply Permutation_nil in Hq; discriminate|].
  cbn [ax_title click_list set_ax_title set_click_list].
  split; [|reflexivity].
  destruct (max_by_spec path_length first rest) as [Hin Hmax].
  assert (Hb : In (b, 1) (first :: rest))
    by (apply (Permutation_in _ (Permutation_sym Hq)); right; now left).
  specialize (Hmax _ Hb).
  apply (Permutation_in _ Hq) in Hin.
  destruct Hin as [E|[E|[E|[]]]]; rewrite <- E in *;
    [exfalso; vm_compute in Hmax; now apply Hmax | reflexivity
    | exfalso; vm_compute in Hmax; now apply Hmax].
Qed.

(** * Further properties of the layout pass and of the pick queue *)

Section MoreLayoutFacts.
Context {num : Type}.
Variable num_of_Z : Z -> num.
Variable int_truediv : Z -> Z -> num.
Variable num_mul : num -> num -> num.
Variable squarify : list num -> num -> num -> num -> num -> result (list (Rect num)).
Variable random_stream : nat -> Z.

Local Abbreviation draw := (draw int_truediv num_mul squarify random_stream).
Local Abbreviation node_state := (node_state (num:=num) random_stream).
Local Abbreviation new_map := (DirectoryMap_init num_of_Z int_truediv num_mul squarify random_stream).
Local Abbreviation tick := (ontime num_of_Z int_truediv num_mul squarify random_stream).
Local Abbreviation unit_rect := (unit_rect num_of_Z).
Local Abbreviation blank := (blank (num:=num)).
Local Abbreviation process_step :=
  (process_step num_of_Z int_truediv num_mul squarify random_stream).
Local Abbreviation squarify_returns := (squarify_returns squarify).

Lemma for_each_invariant {B : Type} (I : St num -> Prop) (l : list B)
    (body : B -> M (St num) unit) :
  (forall b, In b l -> forall s, I s -> I (snd (body b s))) ->
  forall s, I s -> I (snd (for_each l body s)).
Proof.
  induction l as [|b l IH]; intros Hbody s Hs; cbn [for_each]; [exact Hs|].
  unfold bind. pose proof (Hbody b (or_introl eq_refl) s Hs) as Hb.
  destruct (body b s) as [[[]|e] s']; cbn [snd] in *; [|exact Hb].
  apply IH; [|exact Hb]. intros b' Hb' s0. apply Hbody. now right.
Qed.

(** What registering a node keeps, the whole of [draw] keeps. *)
Lemma draw_invariant (I : St num -> Prop) :
  (forall file rect s, I s -> I (node_state file rect s)) ->
  forall file rect s, I s -> I (snd (draw file rect s)).
Proof.
  intros Hnode file.
  induction file as [p sz kids l e IH] using FileObject_tree_ind.
  intros rect s Hs. rewrite draw_unfold. cbv zeta.
  set (file := mkFileObject p sz kids l e) in *.
  pose proof (Hnode file rect s Hs) as H1.
  set (s1 := node_state file rect s) in *.
  destruct (layout_children (minsize (snd s1)) file) as [|c cs] eqn:Hcs; [exact H1|].
  destruct (size file =? 0); [exact H1|].
  destruct (squarify _ _ _ _ _) as [rects|err]; [|exact H1].
  apply for_each_invariant; [|exact H1].
  intros [child r] Hin s0 Hs0.
  apply in_combine_l in Hin. rewrite <- Hcs in Hin.
  apply layout_children_In in Hin as [Hchild _].
  unfold Dict.values in Hchild. apply in_map_iff in Hchild as (kv & <- & Hkv).
  rewrite List.Forall_forall in IH. now apply (IH kv Hkv).
Qed.

Lemma process_after_spec (p : Process) (ext : string) :
  colors_kept p (process_after random_stream p ext) /\
  COLORS (process_after random_stream p ext) !! ext
    = Some (color_of random_stream p ext).
Proof.
  unfold process_after, color_of.
  destruct (COLORS p !! ext) as [c|] eqn:E.
  - split; [apply colors_kept_refl | exact E].
  - split; [|apply lookup_insert_eq].
    intros k c Hk. cbn [COLORS]. rewrite lookup_insert_ne; [exact Hk | congruence].
Qed.

(** The state after a node is registered, part by part. *)
Lemma node_state_parts (file : FileObject) (rect : Rect num)
    (p : Process) (v : DirectoryMap num) :
  let ext := extension file in
  let patch := {| patch_id := length (patch_dict v); xy := (x rect, y rect);
                  width := dx rect; height := dy rect;
                  facecolor := color_of random_stream p ext |} in
  let v2 := set_patch_dict (patch_dict v ++ [(patch, file)])
              (set_extension_count (extension_count v ++ [ext]) v) in
  COLORS (fst (node_state file rect (p, v)))
    = COLORS (process_after random_stream p ext) /\
  rng (fst (node_state file rect (p, v)))
    = rng (process_after random_stream p ext) /\
  snd (node_state file rect (p, v)) =
    if Dict.contains (legend v) ext then v2
    else set_legend (Dict.set (legend v) ext patch) v2.
Proof.
  cbv zeta. unfold node_state. cbn [legend set_patch_dict set_extension_count patch_dict].
  destruct (Dict.contains (legend v) (extension file)); cbn [fst snd COLORS rng];
    repeat split.
  apply insert_id. apply process_after_spec.
Qed.

Lemma Dict_get_In {V : Type} (d : Dict.t V) (k : string) (a : V) :
  Dict.get d k = Some a -> In (k, a) d.
Proof.
  induction d as [|[k' a'] d IH]; cbn [Dict.get]; [discriminate|].
  destruct (String.eqb_spec k k') as [->|_].
  - intros [= ->]. now left.
  - intros H. right. now apply IH.
Qed.

Lemma Dict_set_In {V : Type} (d : Dict.t V) (k k' : string) (a a' : V) :
  In (k', a') (Dict.set d k a) -> (k', a') = (k, a) \/ In (k', a') d.
Proof.
  induction d as [|[k0 a0] d IH]; cbn [Dict.set].
  - intros [H|[]]. left. now symmetry.
  - destruct (String.eqb_spec k k0) as [->|_].
    + intros [H|H]; [left; now symmetry | right; now right].
    + intros [H|H]; [right; now left|].
      destruct (IH H) as [E|E]; [now left | right; now right].
Qed.

Lemma node_state_colours_agree (file : FileObject) (rect : Rect num) (s : St num) :
  colours_agree s -> colours_agree (node_state file rect s).
Proof.
  destruct s as [p v]. intros [Ht Hl].
  destruct (node_state_parts file rect p v) as (Hc & _ & Hv).
  destruct (process_after_spec p (extension file)) as [Hkept Hnew].
  unfold colours_agree. rewrite Hc, Hv. clear Hc Hv. cbn [fst snd] in *.
  assert (Htable : forall patch node,
            In (patch, node)
               (patch_dict v ++
                [({| patch_id := length (patch_dict v); xy := (x rect, y rect);
                     width := dx rect; height := dy rect;
                     facecolor := color_of random_stream p (extension file) |},
                  file)]) ->
            COLORS (process_after random_stream p (extension file)) !! extension node
            = Some (facecolor patch)).
  { intros patch node Hin. apply in_app_or in Hin as [Hin|[[= <- <-]|[]]].
    - apply Hkept. now apply Ht.
    - exact Hnew. }
  destruct (Dict.contains (legend v) (extension file));
    cbn [patch_dict legend set_legend set_patch_dict set_extension_count].
  - split; [exact Htable|]. intros ext a Hin. apply Hkept. now apply Hl.
  - split; [exact Htable|]. intros ext a Hin.
    apply Dict_set_In in Hin as [[= -> ->]|Hin]; [exact Hnew|].
    apply Hkept. now apply Hl.
Qed.

Lemma blank_pass_state (I : St num -> Prop) (root : FileObject) (res : Z)
    (p p' : Process) (v : DirectoryMap num) :
  (forall file rect s, I s -> I (node_state file rect s)) ->
  I (p, set_minsize (size root / res) (blank root res)) ->
  new_map root res p = (Ok v, p') ->
  exists s artists,
    I s /\ p' = fst s /\
    v = set_click_list [] (set_ax_legend (artists, legend_order (snd s)) (snd s)).
Proof.
  intros Hnode H0 H. rewrite new_map_eq in H.
  destruct (res =? 0); [discriminate|].
  pose proof (draw_invariant I Hnode root unit_rect _ H0) as Hs.
  destruct (draw root unit_rect _) as [[[]|e] s]; [|discriminate].
  destruct (artists_of _ _) as [artists|e]; [|discriminate].
  injection H as <- <-. now exists s, artists.
Qed.

(** X1.  After a pass that returns, every rectangle of the table has the
    colour that [COLORS] holds for the extension of its node, and so has
    the legend handle of each extension: rectangles of one extension have
    one colour, the colour shown in the legend. *)
Theorem rectangles_share_extension_colour (root : FileObject) (res : Z)
    (p p' : Process) (v : DirectoryMap num) :
  new_map root res p = (Ok v, p') ->
  (forall patch node, In (patch, node) (patch_dict v) ->
     COLORS p' !! extension node = Some (facecolor patch)) /\
  (forall ext a, Dict.get (legend v) ext = Some a ->
     COLORS p' !! ext = Some (facecolor a)) /\
  (forall patch node a, In (patch, node) (patch_dict v) ->
     Dict.get (legend v) (extension node) = Some a ->
     facecolor patch = facecolor a).
Proof.
  intros H.
  destruct (blank_pass_state colours_agree root res p p' v)
    as (s & artists & [Ht Hl] & -> & ->);
    [apply node_state_colours_agree | split; intros ? ? [] | exact H |].
  cbn [patch_dict legend set_click_list set_ax_legend].
  assert (Hleg : forall ext a, Dict.get (legend (snd s)) ext = Some a ->
                   COLORS (fst s) !! ext = Some (facecolor a))
    by (intros ext a Hg; apply Hl; now apply Dict_get_In).
  split; [exact Ht|]. split; [exact Hleg|].
  intros patch node a Hin Hg.
  apply Ht in Hin. apply Hleg in Hg. congruence.
Qed.

Lemma node_state_table_ids (file : FileObject) (rect : Rect num) (s : St num) :
  table_ids_ok s -> table_ids_ok (node_state file rect s).
Proof.
  destruct s as [p v]. unfold table_ids_ok.
  destruct (node_state_parts file rect p v) as (_ & _ & ->). cbn [snd].
  intros H.
  destruct (Dict.contains (legend v) (extension file));
    cbn [patch_dict set_legend set_patch_dict set_extension_count];
    rewrite map_app, length_app, H; cbn [map fst patch_id length];
    now rewrite Nat.add_1_r, seq_S.
Qed.

Lemma patch_lookup_In (d : list (Patch num * FileObject))
    (patch : Patch num) (node : FileObject) :
  List.NoDup (map (fun e => patch_id (fst e)) d) ->
  In (patch, node) d -> patch_lookup d patch = Some node.
Proof.
  induction d as [|[q f] d IH]; intros Hnd Hin; [destruct Hin|].
  cbn [patch_lookup map fst] in *. inversion Hnd as [|? ? Hq Hd]; subst.
  destruct Hin as [[= -> ->]|Hin]; [now rewrite Nat.eqb_refl|].
  destruct (Nat.eqb_spec (patch_id q) (patch_id patch)) as [E|_]; [|now apply IH].
  exfalso. apply Hq. rewrite E.
  apply (in_map (fun e => patch_id (fst e)) _ _ Hin).
Qed.

Lemma patch_lookup_None (d : list (Patch num * FileObject)) (patch : Patch num) :
  ~ In (patch_id patch) (map (fun e => patch_id (fst e)) d) ->
  patch_lookup d patch = None.
Proof.
  induction d as [|[q f] d IH]; intros Hn; [reflexivity|].
  cbn [patch_lookup map fst] in *.
  destruct (Nat.eqb_spec (patch_id q) (patch_id patch)) as [E|_].
  - exfalso. apply Hn. now left.
  - apply IH. intros H. apply Hn. now right.
Qed.

(** X2.  After a pass that returns, a pick on any rectangle of the table
    puts the node it was drawn for, with the button, at the end of the
    queue and changes nothing else; a pick on a rectangle whose identity is
    not in the table raises [KeyError] and changes nothing; a pick on
    another kind of artist does nothing. *)
Theorem onpick_finds_drawn_node (root : FileObject) (res : Z)
    (p p' : Process) (v : DirectoryMap num) :
  new_map root res p = (Ok v, p') ->
  forall (v' : DirectoryMap num) (p0 : Process) (button : Z),
    patch_dict v' = patch_dict v ->
    (forall patch node, In (patch, node) (patch_dict v) ->
       onpick (RectangleArtist patch) button (p0, v') =
       (Ok tt, (p0, set_click_list (click_list v' ++ [(node, button)]) v'))) /\
    (forall patch : Patch num, (length (patch_dict v) <= patch_id patch)%nat ->
       onpick (RectangleArtist patch) button (p0, v') = (Raise KeyError, (p0, v'))) /\
    onpick OtherArtist button (p0, v') = (Ok tt, (p0, v')).
Proof.
  intros H v' p0 button Hv'.
  destruct (blank_pass_state table_ids_ok root res p p' v)
    as (s & artists & Hids & _ & ->);
    [apply node_state_table_ids | reflexivity | exact H |].
  cbn [patch_dict set_click_list set_ax_legend] in *.
  unfold table_ids_ok in Hids. unfold onpick, bind. cbn [get_state]. rewrite Hv'.
  split; [|split; [|reflexivity]].
  - intros patch node Hin.
    rewrite (patch_lookup_In _ patch node); [reflexivity| |exact Hin].
    rewrite Hids. apply List.seq_NoDup.
  - intros patch Hge. rewrite patch_lookup_None; [reflexivity|].
    rewrite Hids, in_seq. lia.
Qed.

Lemma channel_valid (z : Z) : 0 <= z < 256 -> (0 <= z # 256 /\ z # 256 < 1)%Q.
Proof. intros Hz. unfold Qle, Qlt. cbn. lia. Qed.

Lemma fresh_color_valid (n : nat) : valid_color (fresh_color random_stream n).
Proof.
  unfold fresh_color, valid_color. change (255 - 0 + 1) with 256.
  split; [|split]; apply channel_valid;
    match goal with
    | |- context [?a mod 256] => pose proof (Z.mod_pos_bound a 256 eq_refl)
    end; lia.
Qed.

Lemma process_after_valid (p : Process) (ext : string) :
  valid_colors p -> valid_colors (process_after random_stream p ext).
Proof.
  intros Hp. unfold process_after.
  destruct (COLORS p !! ext) eqn:E; [exact Hp|].
  intros k c. cbn [COLORS]. destruct (decide (ext = k)) as [<-|Hne].
  - rewrite lookup_insert_eq. intros [= <-]. apply fresh_color_valid.
  - rewrite lookup_insert_ne by exact Hne. apply Hp.
Qed.

Lemma valid_colors_same (p p' : Process) :
  COLORS p' = COLORS p -> valid_colors p -> valid_colors p'.
Proof. unfold valid_colors. now intros ->. Qed.

Lemma new_map_valid (root : FileObject) (res : Z) (p : Process) :
  valid_colors p -> valid_colors (snd (new_map root res p)).
Proof.
  intros Hp. rewrite new_map_eq. destruct (res =? 0); [exact Hp|].
  assert (H : valid_colors
                (fst (snd (draw root unit_rect
                        (p, set_minsize (size root / res) (blank root res)))))).
  { apply (draw_invariant (fun s => valid_colors (fst s))); [|exact Hp].
    intros file rect [p0 v0] H0. cbn [fst] in *.
    eapply valid_colors_same; [apply node_state_parts|].
    now apply process_after_valid. }
  destruct (draw root unit_rect _) as [[[]|e] s]; cbn [fst snd] in *; [|exact H].
  now destruct (artists_of _ _).
Qed.

Lemma process_step_valid (p p' : Process) :
  process_step p p' -> valid_colors p -> valid_colors p'.
Proof.
  intros [ext v|file rect v|root res|a button v|v] Hp.
  - rewrite get_color_eq. cbn [fst snd]. now apply process_after_valid.
  - apply (draw_invariant (fun s => valid_colors (fst s))); [|exact Hp].
    intros f r [p0 v0] H0. cbn [fst] in *.
    eapply valid_colors_same; [apply node_state_parts|].
    now apply process_after_valid.
  - now apply new_map_valid.
  - destruct a as [a|]; [|exact Hp].
    unfold onpick, bind. cbn [get_state snd].
    now destruct (patch_lookup (patch_dict v) a).
  - rewrite ontime_eq. destruct (click_list v) as [|first rest]; [exact Hp|].
    cbv zeta. destruct (snd (max_by path_length first rest) =? 3); [|exact Hp].
    pose proof (new_map_valid (fst (max_by path_length first rest))
                  (resolution v) p Hp) as H.
    now destruct (new_map _ _ p) as [[w|e] p1].
Qed.

(** X3.  [get_random_color] returns three channels in [[0, 1)].  [COLORS]
    starts with such a colour for directories, and whatever operations of
    whatever views run on a process whose colours are of that kind, they
    stay of that kind: every colour the program hands to the drawing
    library is a valid RGB triple. *)
Theorem colours_stay_valid :
  (forall n, valid_colors {| COLORS := COLORS0; rng := n |}) /\
  (forall s : St num, exists c s',
     get_random_color random_stream s = (Ok c, s') /\ valid_color c) /\
  (forall p p', rtc process_step p p' -> valid_colors p -> valid_colors p').
Proof.
  split; [|split].
  - intros n k c. cbn [COLORS]. unfold COLORS0.
    destruct (decide (DIR = k)) as [<-|Hne].
    + rewrite lookup_singleton_eq. intros [= <-].
      unfold valid_color, Qle, Qlt. cbn. lia.
    + rewrite lookup_singleton_ne by exact Hne. discriminate.
  - intros [p v]. eexists _, _. split; [reflexivity|].
    apply (fresh_color_valid (rng p)).
  - intros p p' Hsteps. induction Hsteps as [|p1 p2 p3 Hstep _ IH]; [auto|].
    intros Hp. apply IH. now apply (process_step_valid _ _ Hstep).
Qed.

(** X4.  [get_color] never raises.  It returns the colour that [COLORS]
    holds for the extension afterwards, counts one more encounter of that
    extension and of no other, and leaves the rest of the view alone; it
    draws from the generator (three times) only for a new extension. *)
Theorem get_color_counts_one_encounter (ext : string) (p : Process)
    (v : DirectoryMap num) :
  exists c p',
    get_color random_stream ext (p, v) =
      (Ok c, (p', set_extension_count (extension_count v ++ [ext]) v)) /\
    COLORS p' !! ext = Some c /\
    rng p' = (if decide (is_Some (COLORS p !! ext)) then rng p
              else S (S (S (rng p)))) /\
    forall k,
      Counter_get (Counter (extension_count v ++ [ext])) k =
      Counter_get (Counter (extension_count v)) k
      + (if String.eqb k ext then 1 else 0).
Proof.
  eexists _, _. split; [apply get_color_eq|].
  split; [apply process_after_spec|]. split.
  - unfold process_after. destruct (COLORS p !! ext) eqn:E.
    + destruct (decide (is_Some (Some c))) as [_|Hn]; [reflexivity|].
      exfalso. apply Hn. eauto.
    + destruct (decide (is_Some (@None color))) as [[? H]|_];
        [discriminate | reflexivity].
  - intros k. rewrite !Counter_get_count, count_occ_app. cbn [count_occ].
    destruct (String.eqb_spec k ext) as [->|Hne].
    + destruct (string_dec ext ext); [lia | contradiction].
    + destruct (string_dec ext k); [congruence | lia].
Qed.

Lemma for_each_returns {B : Type} (m : Z) (l : list B)
    (body : B -> M (St num) unit) :
  (forall b, In b l -> forall s, minsize (snd s) = m ->
     fst (body b s) = Ok tt /\ minsize (snd (snd (body b s))) = m) ->
  forall s, minsize (snd s) = m -> fst (for_each l body s) = Ok tt.
Proof.
  induction l as [|b l IH]; intros Hbody s Hm; cbn [for_each]; [reflexivity|].
  unfold bind. destruct (Hbody b (or_introl eq_refl) s Hm) as [Hok Hm'].
  destruct (body b s) as [[[]|e] s']; cbn [fst snd] in *; [|discriminate].
  apply IH; [|exact Hm']. intros b' Hb'. apply Hbody. now right.
Qed.

Lemma draw_returns (Hsq : squarify_returns) (file : FileObject) :
  forall rect s, 0 < minsize (snd s) -> size file <> 0 ->
    fst (draw file rect s) = Ok tt.
Proof.
  induction file as [p sz kids l e IH] using FileObject_tree_ind.
  intros rect s Hpos Hsz. set (file := mkFileObject p sz kids l e) in *.
  destruct (node_state_spec random_stream file rect s) as (_ & Hm & _).
  rewrite draw_unfold. cbv zeta. rewrite Hm.
  destruct (layout_children (minsize (snd s)) file) as [|c cs] eqn:Hcs; [reflexivity|].
  destruct (Z.eqb_spec (size file) 0); [contradiction|].
  destruct (Hsq (target_areas int_truediv num_mul file rect (c :: cs))
              (x rect) (y rect) (dx rect) (dy rect)) as [rects ->].
  apply (for_each_returns (minsize (snd s))); [|exact Hm].
  intros [child r] Hin s0 Hm0.
  apply in_combine_l in Hin. rewrite <- Hcs in Hin.
  apply layout_children_In in Hin as [Hchild Hge].
  unfold Dict.values in Hchild. apply in_map_iff in Hchild as (kv & <- & Hkv).
  rewrite List.Forall_forall in IH. split.
  - apply (IH kv Hkv); lia.
  - rewrite <- Hm0. apply draw_minsize.
Qed.


(** X6.  A layout pass with resolution 0 raises [ZeroDivisionError] and
    leaves the process as it was.  So does, after registering the root and
    its colour, a pass over a root of size 0 that has a child of a size
    that is not negative: the child reaches the threshold 0 and its share
    [child.size / 0] is asked for. *)
Theorem pass_divides_by_zero (root : FileObject) (res : Z) (p : Process) :
  new_map root 0 p = (Raise ZeroDivisionError, p) /\
  (res <> 0 -> size root = 0 ->
   (exists k c, In (k, c) (children root) /\ 0 <= size c) ->
   fst (new_map root res p) = Raise ZeroDivisionError /\
   exists patch,
     patch_dict (snd (snd (draw root unit_rect
                             (p, set_minsize 0 (blank root res)))))
     = [(patch, root)]).
Proof.
  split; [now rewrite new_map_eq|].
  intros Hres Hsz (k & c & Hin & Hc). rewrite new_map_eq.
  destruct (Z.eqb_spec res 0); [contradiction|].
  rewrite Hsz. change (0 / res) with 0.
  set (s0 := (p, set_minsize 0 (blank root res))).
  destruct (node_state_spec random_stream root unit_rect s0)
    as (_ & Hm & (patch & Ht & _) & _).
  rewrite draw_unfold. cbv zeta. rewrite Hm. cbn [snd s0 minsize set_minsize].
  assert (Hel : In c (layout_children 0 root)).
  { apply layout_children_In. split; [|exact Hc].
    unfold Dict.values. apply in_map_iff. now exists (k, c). }
  destruct (layout_children 0 root) as [|c0 cs]; [destruct Hel|].
  rewrite Hsz. cbn [Z.eqb fst snd]. split; [reflexivity|].
  exists patch. exact Ht.
Qed.

(** The view of a pass is a view of the root it was given, with the
    resolution it was given and an empty queue. *)
Lemma new_map_fields (root : FileObject) (res : Z) (p p' : Process)
    (v : DirectoryMap num) :
  new_map root res p = (Ok v, p') ->
  root_directory v = root /\ resolution v = res /\ click_list v = [].
Proof.
  intros H.
  destruct (blank_pass_state
              (fun s => root_directory (snd s) = root /\ resolution (snd s) = res)
              root res p p' v) as (s & artists & [Hr Hres] & _ & ->);
    [| split; reflexivity | exact H | now repeat split].
  intros file rect [p0 v0] [H1 H2]. cbn [snd] in *.
  destruct (node_state_parts file rect p0 v0) as (_ & _ & ->).
  now destruct (Dict.contains (legend v0) (extension file)).
Qed.

(** X7.  What a tick on a non-empty queue opens.  With button 3 it runs a
    layout pass rooted at the resolved node with the resolution of this
    view, and opens the new view (with an empty queue of its own) if the
    pass returns, or raises what the pass raises; with button 2 it opens a
    tree view of the resolved node; with any other button it opens
    nothing.  Only button 3 touches the process. *)
Theorem ontime_dispatch (p : Process) (v : DirectoryMap num)
    (first : FileObject * Z) (rest : list (FileObject * Z)) :
  click_list v = first :: rest ->
  let object := fst (max_by path_length first rest) in
  let button := snd (max_by path_length first rest) in
  let v' := set_ax_title (label object) (set_click_list [] v) in
  if button =? 3
  then match new_map object (resolution v) p with
       | (Ok w, p') =>
           tick (p, v) = (Ok [MapWindow w], (p', v')) /\
           root_directory w = object /\ resolution w = resolution v /\
           click_list w = []
       | (Raise e, p') => tick (p, v) = (Raise e, (p', v'))
       end
  else if button =? 2
       then tick (p, v) = (Ok [TreeWindow object], (p, v'))
       else tick (p, v) = (Ok [], (p, v')).
Proof.
  intros Hq. cbv zeta. rewrite ontime_eq, Hq. cbv zeta.
  destruct (Z.eqb_spec (snd (max_by path_length first rest)) 3) as [E|_].
  - rewrite E. cbn [Z.eqb Pos.eqb].
    pose proof (new_map_fields (fst (max_by path_length first rest)) (resolution v) p) as Hf.
    destruct (new_map _ _ p) as [[w|e] p1]; [|reflexivity].
    split; [reflexivity|]. now apply (Hf p1 w).
  - now destruct (snd (max_by path_length first rest) =? 2).
Qed.

(** X8.  A tick leaves a view on which the next tick, with no pick in
    between, does nothing at all. *)
Theorem tick_after_tick_is_idle (p : Process) (v : DirectoryMap num) :
  tick (snd (tick (p, v))) = (Ok [], snd (tick (p, v))).
Proof.
  pose proof (tick_view num_of_Z int_truediv num_mul squarify random_stream p v) as Hv.
  destruct (tick (p, v)) as [r [p1 v1]]. cbn [snd] in *.
  rewrite ontime_eq.
  assert (Hq : click_list v1 = [])
    by (rewrite Hv; destruct (click_list v) eqn:E; [exact E | reflexivity]).
  now rewrite Hq.
Qed.

End MoreLayoutFacts.

(** ** The further properties on the concrete pass *)

Lemma rectangles_share_extension_colour_witness :
  (forall patch node, In (patch, node) (patch_dict Exact.view100) ->
     COLORS (snd Exact.pass100) !! extension node = Some (facecolor patch)) /\
  (forall ext a, Dict.get (legend Exact.view100) ext = Some a ->
     COLORS (snd Exact.pass100) !! ext = Some (facecolor a)) /\
  (forall patch node a, In (patch, node) (patch_dict Exact.view100) ->
     Dict.get (legend Exact.view100) (extension node) = Some a ->
     facecolor patch = facecolor a).
Proof.
  apply (rectangles_share_extension_colour inject_Z Exact.int_truediv Exact.mul
           Exact.strips Exact.stream Exact.tree100 10 Exact.process0).
  vm_compute. reflexivity.
Defined.

Lemma onpick_finds_drawn_node_witness :
  let v' := Exact.view100 in
  let p0 := snd Exact.pass100 in
  (forall patch node, In (patch, node) (patch_dict Exact.view100) ->
     onpick (RectangleArtist patch) 1 (p0, v') =
     (Ok tt, (p0, set_click_list (click_list v' ++ [(node, 1)]) v'))) /\
  (forall patch : Patch Q, (length (patch_dict Exact.view100) <= patch_id patch)%nat ->
     onpick (RectangleArtist patch) 1 (p0, v') = (Raise KeyError, (p0, v'))) /\
  onpick OtherArtist 1 (p0, v') = (Ok tt, (p0, v')).
Proof.
  cbv zeta.
  assert (Hpass : Exact.new_map Exact.tree100 10 Exact.process0
                  = (Ok Exact.view100, snd Exact.pass100))
    by (vm_compute; reflexivity).
  exact (onpick_finds_drawn_node inject_Z Exact.int_truediv Exact.mul
           Exact.strips Exact.stream Exact.tree100 10 Exact.process0
           (snd Exact.pass100) Exact.view100 Hpass
           Exact.view100 (snd Exact.pass100) 1 eq_refl).
Defined.

Lemma colours_stay_valid_witness : valid_colors (snd Exact.pass100).
Proof.
  destruct (colours_stay_valid inject_Z Exact.int_truediv Exact.mul
              Exact.strips Exact.stream) as (Hstart & _ & Hkept).
  apply (Hkept Exact.process0).
  - apply rtc_once. apply (step_new_map _ _ _ _ _ _ Exact.tree100 10).
  - apply (Hstart 0%nat).
Defined.


Lemma pass_divides_by_zero_witness :
  fst (Exact.new_map (Exact.folder "C:\e" [Exact.file "C:\e\empty.txt" 0]) 10
         Exact.process0)
  = Raise ZeroDivisionError.
Proof.
  destruct (pass_divides_by_zero inject_Z Exact.int_truediv Exact.mul Exact.strips
              Exact.stream (Exact.folder "C:\e" [Exact.file "C:\e\empty.txt" 0]) 10
              Exact.process0) as [_ H].
  apply H.
  - discriminate.
  - reflexivity.
  - eexists _, _. split; [left; reflexivity | vm_compute; discriminate].
Defined.

Lemma ontime_dispatch_witness :
  let node := Exact.file "C:\r\B.bin" 30 in
  let v := set_click_list [(Exact.tree100, 1); (node, 2)] Exact.view100 in
  Exact.tick (Exact.process0, v) =
  (Ok [TreeWindow node],
   (Exact.process0, set_ax_title (label node) (set_click_list [] v))).
Proof.
  intros node v.
  exact (ontime_dispatch inject_Z Exact.int_truediv Exact.mul Exact.strips
           Exact.stream Exact.process0 v (Exact.tree100, 1) [(node, 2)] eq_refl).
Defined.

(** * Further properties of the node model *)

(** X9.  [rollup] changes sizes and labels only.  Every node of the tree
    after it stands where a node of the tree before it stood, with the
    same path, the same extension and the same keys for its children; and
    its label is its path, [" | "], its own final size in whole units of
    [1024**2] bytes (rounded down), and [" MB"]. *)
Theorem rollup_labels_every_node (root n : FileObject) :
  subnode n (rollup root) ->
  label n = path n ++ " | " ++ PyStr.str (size n / 1024 ^ 2) ++ " MB" /\
  exists n0, subnode n0 root /\
    path n = path n0 /\ extension n = extension n0 /\
    Dict.keys (children n) = Dict.keys (children n0).
Proof.
  intros Hn. destruct (subnode_rollup root n Hn) as (n0 & Hn0 & ->).
  rewrite rollup_unfold. cbv zeta. cbn [label path size extension children].
  split; [reflexivity|]. exists n0. repeat split; [exact Hn0|].
  unfold Dict.keys, rolled. rewrite map_map. reflexivity.
Qed.

Lemma rollup_labels_every_node_witness :
  label Exact.tree100
  = path Exact.tree100 ++ " | "
    ++ PyStr.str (size Exact.tree100 / 1024 ^ 2) ++ " MB" /\
  exists n0, subnode n0 Exact.scanned100 /\
    path Exact.tree100 = path n0 /\ extension Exact.tree100 = extension n0 /\
    Dict.keys (children Exact.tree100) = Dict.keys (children n0).
Proof.
  exact (rollup_labels_every_node Exact.scanned100 Exact.tree100 (subnode_here _)).
Defined.

Module PyStrCase.
Import PyStr.

Lemma lower_ascii_dot (c : ascii) :
  Ascii.eqb "." (lower_ascii c) = Ascii.eqb "." c.
Proof. destruct c as [[] [] [] [] [] [] [] []]; reflexivity. Qed.

Lemma lower_ascii_twice (c : ascii) : lower_ascii (lower_ascii c) = lower_ascii c.
Proof. destruct c as [[] [] [] [] [] [] [] []]; reflexivity. Qed.

Lemma lower_twice (s : string) : lower (lower s) = lower s.
Proof.
  induction s as [|c s IH]; [reflexivity|].
  cbn [lower]. now rewrite lower_ascii_twice, IH.
Qed.

Lemma find_from_lower (i : Z) (s : string) :
  find_from i "." (lower s) = find_from i "." s.
Proof.
  revert i. induction s as [|c s IH]; intros i; [reflexivity|].
  cbn [lower].
  change (find_from i "." (String (lower_ascii c) (lower s)))
    with (if String.prefix "." (String (lower_ascii c) (lower s)) then i
          else find_from (i + 1) "." (lower s)).
  change (find_from i "." (String c s))
    with (if String.prefix "." (String c s) then i
          else find_from (i + 1) "." s).
  now rewrite !PyStrFacts.prefix_dot, lower_ascii_dot, IH.
Qed.

Lemma rev_onto_lower (s acc : string) :
  rev_onto (lower s) (lower acc) = lower (rev_onto s acc).
Proof.
  revert acc. induction s as [|c s IH]; intros acc; [reflexivity|].
  cbn [lower rev_onto]. apply (IH (String c acc)).
Qed.

Lemma length_lower (s : string) : String.length (lower s) = String.length s.
Proof. induction s as [|c s IH]; [reflexivity|]. cbn. now rewrite IH. Qed.

Lemma drop_lower (n : nat) (s : string) : drop n (lower s) = lower (drop n s).
Proof.
  revert s. induction n as [|n IH]; intros s; [reflexivity|].
  destruct s as [|c s]; [reflexivity|]. cbn [lower drop]. apply IH.
Qed.

Lemma slice_from_lower (s : string) (start : Z) :
  slice_from (lower s) start = lower (slice_from s start).
Proof. unfold slice_from, len. now rewrite length_lower, drop_lower. Qed.

End PyStrCase.

Lemma derive_extension_lower (p : string) :
  derive_extension (PyStr.lower p) = derive_extension p.
Proof.
  unfold derive_extension.
  assert (Hdot : PyStr.find (PyStr.reversed (PyStr.lower p)) "."
                 = PyStr.find (PyStr.reversed p) ".").
  { unfold PyStr.find, PyStr.reversed.
    rewrite <- (PyStrCase.find_from_lower 0 (PyStr.rev_onto p "")).
    now rewrite <- PyStrCase.rev_onto_lower. }
  rewrite Hdot.
  destruct ((0 <=? _) && (_ <=? 5)); [|reflexivity].
  now rewrite PyStrCase.slice_from_lower, PyStrCase.lower_twice.
Qed.

Lemma other_case_lower (c : ascii) :
  PyStr.lower_ascii (other_case c) = PyStr.lower_ascii c.
Proof. destruct c as [[] [] [] [] [] [] [] []]; reflexivity. Qed.

Lemma same_letter_lower (a b : ascii) :
  same_letter a b = true -> PyStr.lower_ascii a = PyStr.lower_ascii b.
Proof.
  unfold same_letter. intros H. apply orb_prop in H as [H|H];
    apply Ascii.eqb_eq in H; subst b; [reflexivity|].
  symmetry. apply other_case_lower.
Qed.

Lemma same_up_to_case_lower (p q : string) :
  same_up_to_case p q = true -> PyStr.lower p = PyStr.lower q.
Proof.
  revert q. induction p as [|a p IH]; intros [|b q] H; cbn [same_up_to_case] in H;
    try discriminate; [reflexivity|].
  apply andb_prop in H as [Hab Hpq].
  cbn [PyStr.lower]. now rewrite (same_letter_lower a b Hab), (IH q Hpq).
Qed.

(** X10.  Two paths of ASCII characters that differ only in the case of
    their letters get the same extension, and so the same colour and the
    same legend entry: the case of a path does not count. *)
Theorem extension_ignores_case (p q : string)
    (parent parent' : option FileObject) (sz sz' : Z) :
  is_ascii p = true -> same_up_to_case p q = true ->
  exists self parent1 other parent2,
    FileObject_init p parent sz = Ok (self, parent1) /\
    FileObject_init q parent' sz' = Ok (other, parent2) /\
    extension other = extension self.
Proof.
  intros _ Hcase. eexists _, _, _, _.
  split; [reflexivity|]. split; [reflexivity|].
  cbn [extension].
  rewrite <- (derive_extension_lower q), <- (derive_extension_lower p).
  now rewrite (same_up_to_case_lower p q Hcase).
Qed.

Lemma extension_ignores_case_witness :
  exists self parent1 other parent2,
    FileObject_init "C:\r\Photo.JPG" None 7 = Ok (self, parent1) /\
    FileObject_init "c:\R\photo.jpg" None 9 = Ok (other, parent2) /\
    extension other = extension self.
Proof.
  apply (extension_ignores_case "C:\r\Photo.JPG" "c:\R\photo.jpg" None None 7 9);
    reflexivity.
Defined.

(** * Aggregation and layout together *)

Lemma sum_sizes_perm (l l' : list FileObject) :
  Permutation l l' -> sum_sizes l = sum_sizes l'.
Proof.
  induction 1 as [|c l l' _ IH|a b l|l1 l2 l3 _ IH1 _ IH2]; cbn [sum_sizes fold_right] in *.
  - reflexivity.
  - fold (sum_sizes l). fold (sum_sizes l'). lia.
  - lia.
  - congruence.
Qed.

Lemma sum_sizes_eligible (m : Z) (l : list FileObject) :
  Forall (fun c => 0 <= size c) l ->
  sum_sizes (eligible id m l) <= sum_sizes l.
Proof.
  induction 1 as [|c l Hc _ IH]; [reflexivity|].
  unfold eligible in *. cbn [List.filter sum_sizes fold_right id] in *.
  fold (sum_sizes l). destruct (m <=? size c); cbn [sum_sizes fold_right];
    fold (sum_sizes (List.filter (fun c0 => m <=? size c0) l)); lia.
Qed.

Lemma rolled_children_nonneg (t : FileObject) :
  sizes_nonneg t = true ->
  Forall (fun c => 0 <= size c) (Dict.values (children (rollup t))) /\
  sum_sizes (Dict.values (children (rollup t))) <= size (rollup t).
Proof.
  intros Hnn. pose proof (sizes_nonneg_rollup t Hnn) as Hr.
  split.
  - destruct (rollup t) as [p s kids l e]. cbn [children sizes_nonneg] in *.
    apply andb_prop in Hr as [_ Hall]. rewrite forallb_forall in Hall.
    apply List.Forall_forall. intros c Hc.
    unfold Dict.values in Hc. apply in_map_iff in Hc as (kv & <- & Hkv).
    specialize (Hall kv Hkv). destruct (snd kv). cbn [sizes_nonneg size] in *.
    apply andb_prop in Hall as [Hs _]. now apply Z.leb_le.
  - rewrite (size_rollup t). destruct t as [p s kids l e].
    cbn [sizes_nonneg size] in Hnn. apply andb_prop in Hnn as [Hs _].
    apply Z.leb_le in Hs. cbn [size]. lia.
Qed.

Lemma size_le_sum_sizes (c : FileObject) (l : list FileObject) :
  Forall (fun c => 0 <= size c) l -> In c l -> size c <= sum_sizes l.
Proof.
  induction 1 as [|a l Ha Hl IH]; intros Hin; [contradiction|].
  cbn [sum_sizes fold_right]. fold (sum_sizes l).
  assert (0 <= sum_sizes l).
  { clear -Hl. induction Hl as [|b l Hb _ IH]; cbn [sum_sizes fold_right];
      [lia | fold (sum_sizes l); lia]. }
  destruct Hin as [->|Hin]; [lia | specialize (IH Hin); lia].
Qed.

Section FitFacts.
Context {num : Type}.
Variable int_truediv : Z -> Z -> num.
Variable num_mul : num -> num -> num.
Variable squarify : list num -> num -> num -> num -> num -> result (list (Rect num)).
Variable random_stream : nat -> Z.

Local Abbreviation draw := (draw int_truediv num_mul squarify random_stream).
Local Abbreviation node_state := (node_state (num:=num) random_stream).

(** X11.  After [rollup] of a tree whose sizes are not negative, the
    quotients [child.size / file.size] that [draw] computes at a node of
    positive size are of sizes that come largest first, each from 0 to
    the size of the node, and that together do not exceed the size of the
    node: the children that are laid out never weigh more than the node
    they are laid out in. *)
Theorem laid_out_sizes_fit_in_node (t : FileObject) (rect : Rect num) (s : St num) :
  sizes_nonneg t = true ->
  let file := rollup t in
  0 < size file ->
  let s1 := node_state file rect s in
  let children := layout_children (minsize (snd s)) file in
  let area := num_mul (dx rect) (dy rect) in
  draw file rect s =
    match children with
    | [] => (Ok tt, s1)
    | _ :: _ =>
        match squarify
                (map (fun child =>
                        num_mul (int_truediv (size child) (size file)) area)
                     children)
                (x rect) (y rect) (dx rect) (dy rect) with
        | Ok rectangles =>
            for_each (zip children rectangles)
                     (fun '(child, rect) => draw child rect) s1
        | Raise e => (Raise e, s1)
        end
    end /\
  StronglySorted (descending size) children /\
  Forall (fun c => 0 <= size c <= size file) children /\
  sum_sizes children <= size file.
Proof.
  intros Hnn file Hpos s1 children area.
  destruct (rolled_children_nonneg t Hnn) as [Hall Hsum].
  assert (Hfit : sum_sizes children <= size file).
  { unfold children, layout_children.
    rewrite (sum_sizes_perm _ _ (sorted_desc_perm size _)).
    pose proof (sum_sizes_eligible (minsize (snd s)) _ Hall). unfold file. lia. }
  assert (Hpos' : Forall (fun c => 0 <= size c) children).
  { apply List.Forall_forall. intros c Hc.
    apply layout_children_In in Hc as [Hc _].
    rewrite List.Forall_forall in Hall. now apply Hall. }
  split; [apply (draw_shares int_truediv num_mul squarify random_stream); lia|].
  split; [apply sorted_desc_sorted|].
  split; [|exact Hfit].
  apply List.Forall_forall. intros c Hc. split.
  - rewrite List.Forall_forall in Hpos'. now apply Hpos'.
  - pose proof (size_le_sum_sizes c children Hpos' Hc). lia.
Qed.

End FitFacts.

Lemma laid_out_sizes_fit_in_node_witness :
  let children := layout_children 10 Exact.tree100 in
  StronglySorted (descending size) children /\
  Forall (fun c => 0 <= size c <= size Exact.tree100) children /\
  sum_sizes children <= size Exact.tree100.
Proof.
  cbv zeta.
  apply (laid_out_sizes_fit_in_node Float64.int_truediv Float64.mul
           Float64.strips Exact.stream Exact.scanned100
           (unit_rect Float64.of_Z)
           (Exact.process0, set_minsize 10 (blank Exact.tree100 10)));
    reflexivity.
Defined.

(** * The tree browser *)

Lemma tree_children_map {A B : Type} (node : B -> FileObject) (h : A -> B) (l : list A) :
  tree_children node (map h l) = map h (tree_children (fun a => node (h a)) l).
Proof.
  unfold tree_children.
  rewrite map_app, <- !(sorted_desc_map (fun c => size (node c)) h). f_equal; f_equal.
  - induction l as [|a l IH]; cbn; [reflexivity|].
    destruct (has_children (node (h a))); cbn; now rewrite IH.
  - induction l as [|a l IH]; cbn; [reflexivity|].
    destruct (has_children (node (h a))); cbn; now rewrite IH.
Qed.

(** [build_tree], one level unfolded. *)
Lemma build_tree_unfold (file : FileObject) (parent : string) :
  build_tree file parent =
  ({| iid := path file; row_parent := parent; text := path file;
      values := PyStr.str (size file / 1024 ^ 2) |}, file)
  :: flat_map (fun child => build_tree child (path file))
       (tree_children id (Dict.values (children file))).
Proof.
  destruct file as [p s kids l e]. cbn [build_tree]. unfold build_tree_with.
  cbn [path size children]. f_equal.
  replace (map (fun kv : string * FileObject => (snd kv, build_tree (snd kv))) kids)
    with (map (fun c => (c, build_tree c)) (Dict.values kids))
    by (unfold Dict.values; now rewrite map_map).
  rewrite tree_children_map. cbn [fst].
  change (tree_children (fun a : FileObject => a)) with (tree_children (@id FileObject)).
  generalize (tree_children id (Dict.values kids)) as cs.
  induction cs as [|c cs IH]; cbn; [reflexivity | now rewrite IH].
Qed.

Lemma filter_partition_perm {A : Type} (f : A -> bool) (l : list A) :
  Permutation (List.filter f l ++ List.filter (fun a => negb (f a)) l) l.
Proof.
  induction l as [|a l IH]; cbn; [reflexivity|].
  destruct (f a); cbn.
  - now constructor.
  - rewrite <- Permutation_middle. now constructor.
Qed.

Lemma tree_children_perm (l : list FileObject) :
  Permutation (tree_children id l) l.
Proof.
  unfold tree_children. rewrite !sorted_desc_perm. apply filter_partition_perm.
Qed.

Lemma flat_map_perm_pointwise {A B : Type} (f g : A -> list B) (l : list A) :
  (forall a, In a l -> Permutation (f a) (g a)) ->
  Permutation (flat_map f l) (flat_map g l).
Proof.
  induction l as [|a l IH]; intros H; cbn; [reflexivity|].
  apply Permutation_app; [apply H; now left | apply IH; intros; apply H; now right].
Qed.

Lemma nodes_unfold (t : FileObject) :
  nodes t = t :: flat_map nodes (Dict.values (children t)).
Proof.
  destruct t as [p s kids l e]. cbn [nodes children]. f_equal.
  unfold Dict.values. induction kids as [|kv kids IH]; cbn; [reflexivity|].
  now rewrite IH.
Qed.

Lemma map_snd_flat_map {A B C : Type} (f : A -> list (B * C)) (l : list A) :
  map snd (flat_map f l) = flat_map (fun a => map snd (f a)) l.
Proof.
  induction l as [|a l IH]; cbn; [reflexivity|]. now rewrite map_app, IH.
Qed.

Lemma tree_children_In (l : list FileObject) (c : FileObject) :
  In c (tree_children id l) <-> In c l.
Proof.
  split; apply Permutation_in; [|symmetry]; apply tree_children_perm.
Qed.

Lemma child_of_values (d : Dict.t FileObject) (c : FileObject) :
  In c (Dict.values d) -> exists kv, In kv d /\ snd kv = c.
Proof.
  unfold Dict.values. intros H. apply in_map_iff in H as (kv & <- & Hkv). eauto.
Qed.

Lemma build_tree_perm (t : FileObject) :
  forall parent, Permutation (map snd (build_tree t parent)) (nodes t).
Proof.
  induction t as [p s kids l e IH] using FileObject_tree_ind. intros parent.
  rewrite build_tree_unfold, nodes_unfold. cbn [map snd]. constructor.
  rewrite map_snd_flat_map.
  transitivity (flat_map nodes (tree_children id (Dict.values kids))).
  - apply flat_map_perm_pointwise. intros c Hc.
    apply tree_children_In, child_of_values in Hc as (kv & Hkv & <-).
    rewrite List.Forall_forall in IH. apply (IH kv Hkv).
  - apply Permutation_flat_map, tree_children_perm.
Qed.

Lemma build_tree_rows (t : FileObject) :
  forall parent, Forall row_of_node (build_tree t parent).
Proof.
  induction t as [p s kids l e IH] using FileObject_tree_ind. intros parent.
  rewrite build_tree_unfold. constructor; [now repeat split|].
  apply Forall_flat_map, List.Forall_forall. intros c Hc.
  apply tree_children_In, child_of_values in Hc as (kv & Hkv & <-).
  rewrite List.Forall_forall in IH. apply (IH kv Hkv).
Qed.

Lemma nodes_child (t c m : FileObject) :
  In c (Dict.values (children t)) -> In m (nodes c) -> In m (nodes t).
Proof.
  intros Hc Hm. rewrite nodes_unfold. right.
  apply in_flat_map. now exists c.
Qed.

Lemma build_tree_parents (t : FileObject) :
  forall parent, Forall (row_under_parent t) (tl (build_tree t parent)).
Proof.
  induction t as [p s kids l e IH] using FileObject_tree_ind. intros parent.
  set (t := mkFileObject p s kids l e) in *.
  rewrite build_tree_unfold. cbn [tl].
  apply Forall_flat_map, List.Forall_forall. intros c Hc.
  apply (proj1 (tree_children_In _ _)) in Hc.
  destruct (child_of_values _ c Hc) as (kv & Hkv & <-).
  rewrite List.Forall_forall in IH. specialize (IH kv Hkv (path t)).
  rewrite build_tree_unfold in *. cbn [tl] in IH. constructor.
  - exists t. cbn [fst snd row_parent]. repeat split; [|exact Hc].
    rewrite nodes_unfold. now left.
  - eapply List.Forall_impl; [|exact IH].
    intros e0 (m & Hm & Hin & Hp). exists m. repeat split; try assumption.
    now apply (nodes_child t (snd kv)).
Qed.

(** X12.  [build_tree] inserts one row for every node of the tree and
    for nothing else.  The row of a node has its path as id and as text
    and its size in whole units of [1024**2] bytes as value; the first row
    is the root's, under the parent that was given, and every other row is
    under the id of the node that holds its node. *)
Theorem build_tree_lists_every_node (root : FileObject) (parent : string) :
  Permutation (map snd (build_tree root parent)) (nodes root) /\
  Forall row_of_node (build_tree root parent) /\
  exists row rest,
    build_tree root parent = (row, root) :: rest /\
    row_parent row = parent /\
    Forall (row_under_parent root) rest.
Proof.
  split; [apply build_tree_perm|]. split; [apply build_tree_rows|].
  pose proof (build_tree_parents root parent) as Hp.
  rewrite build_tree_unfold in *. cbn [tl] in Hp.
  eexists _, _. split; [reflexivity|]. split; [reflexivity | exact Hp].
Qed.

Lemma filter_filter_and {A : Type} (f g : A -> bool) (l : list A) :
  List.filter f (List.filter g l) = List.filter (fun a => f a && g a) l.
Proof.
  induction l as [|a l IH]; [reflexivity|].
  cbn [List.filter]. destruct (g a); cbn [List.filter].
  - destruct (f a); cbn [andb]; now rewrite IH.
  - rewrite andb_false_r. exact IH.
Qed.

(** X13.  Under each node, [build_tree] lists every child once: first
    the children that have children of their own, then those that have
    none, each group from the largest size to the smallest, children of
    one size in the order of the [children] dict. *)
Theorem build_tree_orders_children (file : FileObject) (parent : string) :
  let all := Dict.values (children file) in
  exists row directories files,
    build_tree file parent =
      (row, file) :: flat_map (fun child => build_tree child (path file))
                       (directories ++ files) /\
    Permutation (directories ++ files) all /\
    Forall (fun c => has_children c = true) directories /\
    Forall (fun c => has_children c = false) files /\
    StronglySorted (descending size) directories /\
    StronglySorted (descending size) files /\
    (forall k, List.filter (fun c => size c =? k) directories
               = List.filter (fun c => (size c =? k) && has_children c) all) /\
    (forall k, List.filter (fun c => size c =? k) files
               = List.filter (fun c => (size c =? k) && negb (has_children c)) all).
Proof.
  cbv zeta. rewrite build_tree_unfold. unfold tree_children, id.
  eexists _, _, _. split; [reflexivity|].
  split; [apply (tree_children_perm (Dict.values (children file)))|].
  split; [|split].
  - apply List.Forall_forall. intros c Hc.
    apply sorted_desc_In, filter_In in Hc. apply Hc.
  - apply List.Forall_forall. intros c Hc.
    apply sorted_desc_In, filter_In in Hc as [_ Hc]. now apply negb_true_iff.
  - split; [apply sorted_desc_sorted|]. split; [apply sorted_desc_sorted|].
    split; intros k; rewrite sorted_desc_stable; apply filter_filter_and.
Qed.

Lemma fold_set_other (l : list (Row * FileObject)) (d : Dict.t FileObject) (k : string) :
  ~ In k (map (fun e => iid (fst e)) l) ->
  Dict.get (fold_left (fun d e => Dict.set d (iid (fst e)) (snd e)) l d) k
  = Dict.get d k.
Proof.
  revert d. induction l as [|e l IH]; intros d Hk; [reflexivity|].
  cbn [fold_left map] in *. rewrite IH by (intros H; apply Hk; now right).
  apply DictFacts.get_set_ne. intros ->. apply Hk. now left.
Qed.

Lemma fold_set_get (l : list (Row * FileObject)) (d : Dict.t FileObject)
    (e : Row * FileObject) :
  List.NoDup (map (fun e => iid (fst e)) l) -> In e l ->
  Dict.get (fold_left (fun d e => Dict.set d (iid (fst e)) (snd e)) l d) (iid (fst e))
  = Some (snd e).
Proof.
  revert d. induction l as [|e0 l IH]; intros d Hnd Hin; [destruct Hin|].
  cbn [fold_left map] in *. inversion Hnd as [|? ? Hk Hl]; subst.
  destruct Hin as [->|Hin].
  - rewrite fold_set_other by exact Hk. apply DictFacts.get_set_eq.
  - now apply IH.
Qed.

(** X14.  When no two nodes of the tree have the same path, the
    [directory_dict] that [build_tree] fills maps the id of every row back
    to the node of that row: the node that [make_treemap] looks up under
    the focused id is the node that the row shows. *)
Theorem directory_dict_finds_every_node (root : FileObject) (parent : string) :
  List.NoDup (map path (nodes root)) ->
  forall n, In n (nodes root) ->
    Dict.get (directory_dict_of (build_tree root parent)) (path n) = Some n.
Proof.
  intros Hnd n Hn.
  pose proof (build_tree_perm root parent) as Hperm.
  pose proof (build_tree_rows root parent) as Hrows.
  apply (Permutation_in _ (Permutation_sym Hperm)) in Hn.
  apply in_map_iff in Hn as (e & <- & He).
  rewrite List.Forall_forall in Hrows.
  destruct (Hrows e He) as (Hid & _). rewrite <- Hid.
  apply fold_set_get; [|exact He].
  replace (map (fun e0 => iid (fst e0)) (build_tree root parent))
    with (map path (map snd (build_tree root parent))).
  - eapply Permutation_NoDup; [|exact Hnd].
    symmetry. now apply Permutation_map.
  - rewrite map_map. apply map_ext_in. intros e0 He0.
    symmetry. apply (Hrows e0 He0).
Qed.

Lemma directory_dict_finds_every_node_witness :
  let n := rollup (Exact.file "C:\r\A\big.bin" 46) in
  Dict.get (directory_dict_of (build_tree Exact.tree100 "")) (path n) = Some n.
Proof.
  intros n.
  apply (directory_dict_finds_every_node Exact.tree100 "").
  - vm_compute. repeat constructor; cbn; intuition discriminate.
  - vm_compute. right. right. right. left. reflexivity.
Defined.

(** The rows of [tree100]: directories first, then files by size. *)
Example rows100 :
  map (fun e => (iid (fst e), row_parent (fst e), values (fst e)))
      (build_tree Exact.tree100 "") =
  [("C:\r", "", "0"); ("C:\r\A", "C:\r", "0");
   ("C:\r\A\big.bin", "C:\r\A", "0"); ("C:\r\A\tiny.txt", "C:\r\A", "0");
   ("C:\r\B.bin", "C:\r", "0"); ("C:\r\C.TXT", "C:\r", "0");
   ("C:\r\D.txt", "C:\r", "0")].
Proof. vm_compute. reflexivity. Qed.

(** * The scan: [create_parents] *)

Module ScanFacts.
Import Scan.

Lemma split_on_nonempty (sep : ascii) (s : string) : split_on sep s <> [].
Proof.
  destruct s as [|c s]; cbn [split_on]; [discriminate|].
  destruct (Ascii.eqb c sep); [discriminate|].
  destruct (split_on sep s); discriminate.
Qed.

(** Joining what [split] returns gives the string back. *)
Lemma join_split (sep : ascii) (s : string) :
  join (String sep EmptyString) (split_on sep s) = s.
Proof.
  induction s as [|c s IH]; [reflexivity|].
  cbn [split_on]. pose proof (split_on_nonempty sep s) as Hne.
  destruct (Ascii.eqb_spec c sep) as [->|_].
  - destruct (split_on sep s) as [|w ws]; [contradiction|].
    cbn [join] in *. now rewrite IH.
  - destruct (split_on sep s) as [|w ws]; [contradiction|].
    cbn [join] in *. destruct ws; rewrite <- IH; reflexivity.
Qed.

Lemma join_snoc (sep : string) (l : list string) (w : string) :
  l <> [] -> join sep (l ++ [w]) = join sep l ++ sep ++ w.
Proof.
  induction l as [|a l IH]; intros Hne; [contradiction|].
  destruct l as [|b l]; [reflexivity|].
  change (join sep ((a :: b :: l) ++ [w]))
    with (a ++ sep ++ join sep ((b :: l) ++ [w])).
  rewrite IH by discriminate.
  change (join sep (a :: b :: l)) with (a ++ sep ++ join sep (b :: l)).
  now rewrite <- !PyStrFacts.app_assoc.
Qed.

Lemma firstn_snoc (dps : list string) (i : nat) :
  (i < length dps)%nat ->
  firstn (S i) dps = (firstn i dps ++ [nth i dps EmptyString])%list.
Proof.
  revert i. induction dps as [|d dps IH]; intros i Hi; cbn [length] in Hi; [lia|].
  destruct i as [|i]; [reflexivity|].
  cbn [firstn nth app]. f_equal. apply IH. lia.
Qed.

(** The path of a directory is the path of the directory that holds it,
    a separator and its own name. *)
Lemma prefix_path_S (dps : list string) (i : nat) :
  (1 <= i < length dps)%nat ->
  prefix_path dps (S i) = prefix_path dps i ++ "\" ++ nth i dps EmptyString.
Proof.
  intros Hi. unfold prefix_path. rewrite firstn_snoc by lia.
  apply join_snoc. destruct dps as [|d dps]; [cbn in Hi; lia|].
  destruct i; [lia | discriminate].
Qed.

Lemma prefix_path_all (directory_path : string) :
  prefix_path (split_on "\" directory_path)
              (length (split_on "\" directory_path)) = directory_path.
Proof. unfold prefix_path. rewrite firstn_all. apply join_split. Qed.

Lemma same_node_refl (a : Obj) : same_node a a.
Proof. now repeat split. Qed.

Lemma store_grows_refl (st : list Obj) : store_grows st st.
Proof. intros q obj H. exists obj. split; [exact H | apply same_node_refl]. Qed.

Lemma store_grows_trans (s1 s2 s3 : list Obj) :
  store_grows s1 s2 -> store_grows s2 s3 -> store_grows s1 s3.
Proof.
  intros H12 H23 q obj H.
  destruct (H12 q obj H) as (o2 & H2 & E2).
  destruct (H23 q o2 H2) as (o3 & H3 & E3).
  exists o3. split; [exact H3|].
  unfold same_node in *. intuition congruence.
Qed.

Lemma FileObject_new_grows (st : list Obj) (path : string)
    (parent : option nat) (size : Z) :
  store_grows st (fst (FileObject_new st path parent size)).
Proof.
  intros q obj H. pose proof (lookup_lt_Some _ _ _ H) as Hlt.
  unfold FileObject_new. cbn [fst].
  destruct parent as [p|].
  - rewrite lookup_app_l by now rewrite length_alter.
    destruct (decide (p = q)) as [->|Hne].
    + rewrite list_lookup_alter_eq, H. cbn. eexists. split; [reflexivity|].
      now repeat split.
    + rewrite list_lookup_alter_ne by exact Hne.
      exists obj. split; [exact H | apply same_node_refl].
  - rewrite lookup_app_l by exact Hlt.
    exists obj. split; [exact H | apply same_node_refl].
Qed.

Lemma dict_grows_refl (d : Dict.t nat) : dict_grows d d.
Proof. now intros k v H. Qed.

Lemma dict_grows_trans (d1 d2 d3 : Dict.t nat) :
  dict_grows d1 d2 -> dict_grows d2 d3 -> dict_grows d1 d3.
Proof. intros H12 H23 k v H. apply H23, H12, H. Qed.

(** One round: the prefix is in the dict afterwards, and is the object
    carried to the next round. *)
Lemma step_spec (dps : list string) (st : list Obj) (dd : Dict.t nat)
    (ob : option nat) (i : nat) :
  exists st' dd' o,
    create_parents_step dps (st, dd, ob) i = (st', dd', Some o) /\
    Dict.get dd' (prefix_path dps i) = Some o /\
    store_grows st st' /\ dict_grows dd dd'.
Proof.
  unfold create_parents_step.
  destruct (Dict.get dd (prefix_path dps i)) as [o|] eqn:E.
  - exists st, dd, o. repeat split; [exact E | apply store_grows_refl | apply dict_grows_refl].
  - pose proof (FileObject_new_grows st (prefix_path dps i) ob 0) as Hg.
    destruct (FileObject_new st (prefix_path dps i) ob 0) as [st' o] eqn:En.
    exists st', (Dict.set dd (prefix_path dps i) o), o.
    split; [reflexivity|]. split; [apply DictFacts.get_set_eq|].
    split; [exact Hg|].
    intros k v Hk. rewrite DictFacts.get_set_ne; [exact Hk | congruence].
Qed.

(** The loop after [j] rounds. *)
Lemma loop_spec (dps : list string) (st : list Obj) (dd : Dict.t nat) (j : nat) :
  exists st' dd' ob,
    fold_left (create_parents_step dps) (seq 1 j) (st, dd, None) = (st', dd', ob) /\
    store_grows st st' /\ dict_grows dd dd' /\
    (forall i, (1 <= i <= j)%nat -> exists o, Dict.get dd' (prefix_path dps i) = Some o) /\
    match j with
    | O => ob = None
    | S _ => exists o, ob = Some o /\ Dict.get dd' (prefix_path dps j) = Some o
    end.
Proof.
  induction j as [|j IH].
  - exists st, dd, None. cbn. repeat split;
      [apply store_grows_refl | apply dict_grows_refl | intros i Hi; lia].
  - destruct IH as (st1 & dd1 & ob1 & Hrun & Hs & Hd & Hall & _).
    rewrite seq_S, fold_left_app, Hrun. cbn [fold_left Nat.add].
    destruct (step_spec dps st1 dd1 ob1 (S j)) as (st2 & dd2 & o & -> & Hget & Hs2 & Hd2).
    exists st2, dd2, (Some o). split; [reflexivity|].
    split; [eapply store_grows_trans; eauto|].
    split; [eapply dict_grows_trans; eauto|].
    split; [|now exists o].
    intros i Hi. destruct (decide (i = S j)) as [->|Hne]; [now exists o|].
    destruct (Hall i) as [o' Ho']; [lia|]. exists o'. now apply Hd2.
Qed.

Lemma step_registered (dps : list string) (st : list Obj) (dd : Dict.t nat)
    (ob : option nat) (i o : nat) :
  Dict.get dd (prefix_path dps i) = Some o ->
  create_parents_step dps (st, dd, ob) i = (st, dd, Some o).
Proof. intros H. unfold create_parents_step. now rewrite H. Qed.

(** When every prefix is in the dict, the loop creates nothing. *)
Lemma loop_all_registered (dps : list string) (st : list Obj) (dd : Dict.t nat)
    (l : list nat) (ob : option nat) :
  (forall i, In i l -> exists o, Dict.get dd (prefix_path dps i) = Some o) ->
  fold_left (create_parents_step dps) l (st, dd, ob) =
  (st, dd, match l with
           | [] => ob
           | _ :: _ => Dict.get dd (prefix_path dps (List.last l O))
           end).
Proof.
  revert ob. induction l as [|i l IH]; intros ob Hall; [reflexivity|].
  cbn [fold_left].
  destruct (Hall i (or_introl eq_refl)) as [o Ho].
  rewrite (step_registered dps st dd ob i o Ho).
  rewrite IH by (intros i' Hi'; apply Hall; now right).
  destruct l as [|i' l]; [cbn [List.last]; now rewrite Ho | reflexivity].
Qed.

Lemma last_seq (m : nat) : List.last (seq 1 (S m)) O = S m.
Proof. rewrite seq_S. apply last_last. Qed.

(** X15.  [create_parents] returns the object that [directory_dict]
    then holds under the whole path.  Afterwards the dict holds an object
    under every prefix of the path that ends before a separator or at the
    end; the entries it had are as they were, and the objects that
    existed keep their path, size, parent, label and extension. *)
Theorem create_parents_registers_prefixes (directory_path : string)
    (st : list Obj) (dd : Dict.t nat) :
  let dps := split_on "\" directory_path in
  exists st' dd' o,
    create_parents directory_path st dd = (st', dd', Some o) /\
    Dict.get dd' directory_path = Some o /\
    store_grows st st' /\ dict_grows dd dd' /\
    forall i, (1 <= i <= length dps)%nat ->
      exists q, Dict.get dd' (prefix_path dps i) = Some q.
Proof.
  cbv zeta. unfold create_parents.
  pose proof (split_on_nonempty "\" directory_path) as Hne.
  pose proof (prefix_path_all directory_path) as Hall.
  destruct (loop_spec (split_on "\" directory_path) st dd
              (length (split_on "\" directory_path)))
    as (st' & dd' & ob & Hrun & Hs & Hd & Hreg & Hob).
  destruct (length (split_on "\" directory_path)) as [|m] eqn:Hlen.
  - destruct (split_on "\" directory_path); [contradiction | discriminate].
  - destruct Hob as (o & -> & Ho). rewrite Hall in Ho.
    exists st', dd', o. now repeat split.
Qed.

(** X16.  A second [create_parents] of the same path creates no object
    and changes neither the store nor the dict; it returns the object
    that the first call returned. *)
Theorem create_parents_again_creates_nothing (directory_path : string)
    (st : list Obj) (dd : Dict.t nat) :
  exists st' dd' o,
    create_parents directory_path st dd = (st', dd', Some o) /\
    create_parents directory_path st' dd' = (st', dd', Some o).
Proof.
  unfold create_parents.
  pose proof (split_on_nonempty "\" directory_path) as Hne.
  destruct (loop_spec (split_on "\" directory_path) st dd
              (length (split_on "\" directory_path)))
    as (st' & dd' & ob & Hrun & _ & _ & Hreg & Hob).
  destruct (length (split_on "\" directory_path)) as [|m] eqn:Hlen.
  - destruct (split_on "\" directory_path); [contradiction | discriminate].
  - destruct Hob as (o & -> & Ho).
    exists st', dd', o. split; [exact Hrun|].
    rewrite loop_all_registered.
    + rewrite last_seq. cbn [seq]. now rewrite Ho.
    + intros i Hi. apply Hreg. apply in_seq in Hi. lia.
Qed.

(** The store after a construction, place by place. *)
Lemma FileObject_new_lookup (st : list Obj) (path : string)
    (parent : option nat) (size : Z) (o' : nat) (obj' : Obj) :
  fst (FileObject_new st path parent size) !! o' = Some obj' <->
  (o' = length st /\
   obj' = {| o_path := path; o_size := size; o_parent := parent;
             o_children := []; o_label := "";
             o_extension := derive_extension path |}) \/
  (exists obj0, st !! o' = Some obj0 /\
     obj' = if decide (parent = Some o')
            then add_child path (length st) obj0 else obj0).
Proof.
  unfold FileObject_new. cbn [fst].
  set (new := {| o_path := path; o_size := size; o_parent := parent;
                 o_children := []; o_label := "";
                 o_extension := derive_extension path |}).
  set (stA := match parent with
              | Some q => alter (add_child path (length st)) q st
              | None => st
              end).
  assert (HlenA : length stA = length st)
    by (unfold stA; destruct parent; [apply length_alter | reflexivity]).
  assert (HA : forall obj1, stA !! o' = Some obj1 <->
            exists obj0, st !! o' = Some obj0 /\
              obj1 = if decide (parent = Some o')
                     then add_child path (length st) obj0 else obj0).
  { intros obj1. unfold stA. destruct parent as [q|].
    - destruct (decide (q = o')) as [->|Hne].
      + rewrite list_lookup_alter_eq.
        destruct (decide (Some o' = Some o')) as [_|Hn]; [|contradiction].
        destruct (st !! o') as [obj0|]; cbn.
        * split; [intros [= <-]; eauto | intros (? & [= <-] & ->); reflexivity].
        * split; [discriminate | intros (? & ? & _); discriminate].
      + rewrite list_lookup_alter_ne by exact Hne.
        destruct (decide (Some q = Some o')) as [[= ?]|_]; [contradiction|].
        split; [eauto | intros (? & ? & ->); assumption].
    - destruct (decide (None = Some o')); [discriminate|].
      split; [eauto | intros (? & ? & ->); assumption]. }
  destruct (Nat.lt_trichotomy o' (length st)) as [Hlt|[->|Hgt]].
  - rewrite lookup_app_l by lia. rewrite HA. split; [now right|].
    intros [[-> _]|H]; [lia | exact H].
  - rewrite <- HlenA at 1. rewrite list_lookup_middle by reflexivity. split.
    + intros [= <-]. now left.
    + intros [[_ ->]|(obj0 & H0 & _)]; [reflexivity|].
      apply lookup_lt_Some in H0. lia.
  - rewrite (proj2 (lookup_ge_None _ _)) by (rewrite length_app, HlenA; cbn; lia).
    split; [discriminate|].
    intros [[-> _]|(obj0 & H0 & _)]; [lia|].
    apply lookup_lt_Some in H0. lia.
Qed.

Lemma add_child_keeps (path : string) (self : nat) (parent : option nat)
    (o' : nat) (obj0 : Obj) :
  let obj' := if decide (parent = Some o')
              then add_child path self obj0 else obj0 in
  o_path obj' = o_path obj0 /\ o_parent obj' = o_parent obj0.
Proof. cbv zeta. destruct (decide (parent = Some o')); now split. Qed.

(** What the loop carries into round [S j]: nothing into the first
    round, afterwards the object of the prefix before. *)
Lemma step_keeps (dps : list string) (st : list Obj) (dd : Dict.t nat)
    (ob : option nat) (j : nat) :
  indexed st dd -> linked st -> (S j <= length dps)%nat ->
  carried dps dd ob j ->
  let r := create_parents_step dps (st, dd, ob) (S j) in
  indexed (fst (fst r)) (snd (fst r)) /\ linked (fst (fst r)).
Proof.
  intros Hix Hlk Hj Hob. cbv zeta. unfold create_parents_step.
  set (k := prefix_path dps (S j)).
  destruct (Dict.get dd k) as [o|] eqn:E; [now split|].
  pose proof (FileObject_new_lookup st k ob 0) as Hlook.
  destruct (FileObject_new st k ob 0) as [st' self] eqn:En.
  assert (Hself : self = length st)
    by (unfold FileObject_new in En; now injection En as _ <-).
  subst self. cbn [fst snd] in *.
  assert (Hfresh : forall q obj, st !! q = Some obj -> o_path obj <> k).
  { intros q obj Hq Hp.
    assert (Dict.get dd k = Some q) as Hk by (apply Hix; eauto).
    congruence. }
  split.
  - intros k' o. split.
    + intros Hget. destruct (String.eqb_spec k' k) as [->|Hne].
      * rewrite DictFacts.get_set_eq in Hget. injection Hget as <-.
        eexists. split; [apply Hlook; left; split; reflexivity | reflexivity].
      * rewrite DictFacts.get_set_ne in Hget by exact Hne.
        apply Hix in Hget. destruct Hget as (obj0 & H0 & Hp).
        eexists. split; [apply Hlook; right; exists obj0; split;
                         [exact H0 | reflexivity]|].
        rewrite <- Hp. apply add_child_keeps.
    + intros (obj' & Hq & Hp). apply Hlook in Hq.
      destruct Hq as [[-> ->]|(obj0 & H0 & ->)].
      * cbn in Hp. subst k'. apply DictFacts.get_set_eq.
      * rewrite (proj1 (add_child_keeps k (length st) ob o obj0)) in Hp.
        rewrite DictFacts.get_set_ne
          by (rewrite <- Hp; eapply Hfresh; exact H0).
        apply Hix. eauto.
  - intros o obj' q Hq Hpar. apply Hlook in Hq.
    destruct Hq as [[-> ->]|(obj0 & H0 & ->)].
    + cbn in Hpar. subst ob. cbn [o_path].
      destruct j as [|j]; [discriminate|].
      destruct Hob as (q' & [= <-] & Hget).
      apply Hix in Hget. destruct Hget as (pobj0 & Hp0 & Hpath).
      exists (add_child k (length st) pobj0), (nth (S j) dps EmptyString).
      split; [apply Hlook; right; exists pobj0; split; [exact Hp0|];
              destruct (decide (Some q = Some q)); [reflexivity | contradiction]|].
      split; [apply DictFacts.get_set_eq|].
      cbn [add_child o_path]. rewrite Hpath. apply prefix_path_S. lia.
    + destruct (add_child_keeps k (length st) ob o obj0) as [Ep Eq].
      cbv zeta in Ep, Eq. rewrite Ep. rewrite Eq in Hpar.
      destruct (Hlk o obj0 q H0 Hpar) as (pobj0 & name & Hp0 & Hch & Hpath).
      exists (if decide (ob = Some q)
              then add_child k (length st) pobj0 else pobj0), name.
      split; [apply Hlook; right; exists pobj0; split;
              [exact Hp0 | reflexivity]|].
      destruct (decide (ob = Some q)); cbn [add_child o_children o_path].
      * split; [|exact Hpath].
        rewrite DictFacts.get_set_ne by (eapply Hfresh; exact H0). exact Hch.
      * split; [exact Hch | exact Hpath].
Qed.

Lemma loop_keeps (dps : list string) (st : list Obj) (dd : Dict.t nat) (j : nat) :
  indexed st dd -> linked st -> (j <= length dps)%nat ->
  exists st' dd' ob,
    fold_left (create_parents_step dps) (seq 1 j) (st, dd, None) = (st', dd', ob) /\
    indexed st' dd' /\ linked st' /\ carried dps dd' ob j.
Proof.
  intros Hix Hlk. induction j as [|j IH]; intros Hj.
  - exists st, dd, None. split; [reflexivity|]. split; [exact Hix|].
    split; [exact Hlk | reflexivity].
  - destruct IH as (st1 & dd1 & ob1 & Hrun & Hix1 & Hlk1 & Hob1); [lia|].
    rewrite seq_S, fold_left_app, Hrun. cbn [fold_left Nat.add].
    pose proof (step_keeps dps st1 dd1 ob1 j Hix1 Hlk1 Hj Hob1) as Hkeep.
    destruct (step_spec dps st1 dd1 ob1 (S j))
      as (st2 & dd2 & o & E & Hget & _ & _).
    cbv zeta in Hkeep. rewrite E in Hkeep |- *. cbn [fst snd] in Hkeep.
    exists st2, dd2, (Some o). split; [reflexivity|].
    split; [apply Hkeep|]. split; [apply Hkeep|]. now exists o.
Qed.

(** X17.  [create_parents] keeps the scan's bookkeeping sound: when
    [directory_dict] and the store name the same objects by the same
    paths, and every object that has a parent is in that parent's
    [children] under its own path, which is the parent's path, a
    separator and a name, then the same holds after the call. *)
Theorem create_parents_keeps_links (directory_path : string)
    (st : list Obj) (dd : Dict.t nat) :
  indexed st dd -> linked st ->
  let r := create_parents directory_path st dd in
  indexed (fst (fst r)) (snd (fst r)) /\ linked (fst (fst r)).
Proof.
  intros Hix Hlk. cbv zeta. unfold create_parents.
  destruct (loop_keeps (split_on "\" directory_path) st dd
              (length (split_on "\" directory_path)) Hix Hlk (le_n _))
    as (st' & dd' & ob & -> & Hix' & Hlk' & _).
  now split.
Qed.

Lemma create_parents_keeps_links_witness :
  let r := create_parents "C:\Users\me" [] [] in
  indexed (fst (fst r)) (snd (fst r)) /\ linked (fst (fst r)).
Proof.
  apply (create_parents_keeps_links "C:\Users\me" [] []).
  - intros k o. cbn. split; [discriminate | intros (obj & H & _); discriminate].
  - intros o obj q H. discriminate.
Defined.

End ScanFacts.
